(** * aiops_triage: log clustering, runbook lookup and report extraction

    A shallow embedding of [src/aiops_triage.py] and the proofs of its
    specification.

    Text.  A Python [str] is a sequence of code points.  The model takes the
    code points below 256 (Rocq's [ascii]) and classifies them as Python does
    there: [str.isspace] and the regular expression class [\s] agree on
    9..13, 28..32, 133 and 160; [\d] is 0..9; [\w] is [str.isalnum] or the
    underscore; [str.lower] moves A..Z and the upper-case letters of
    192..222 (215, the multiplication sign, apart) up by 32.

    Above code point 255 Python knows more characters of each kind: other
    decimal digits in [\d] (U+0663, for one), other white space, and,
    under IGNORECASE, U+0130 and U+0131 beside the letter i and U+017F
    beside the letter s.  Where that makes a difference the statements
    below speak of the classes and of what the matcher takes for a
    literal, and name no particular characters.

    Regular expressions.  Python's [re] is a backtracking matcher.  The
    patterns of the program are written as values of [regex] and run by
    [run], which returns every way the pattern matches at a position, in the
    order the backtracking matcher tries them: the head of that list is
    Python's match.

    The world outside.  [load_logs] and [main] read a file, call a text
    generator and print; the states of the file, the answers of the
    generator and whether the standard output takes a text, exceptions
    among them, are arguments of the model. *)

From Stdlib Require Import Ascii String DecimalString.
From Stdlib Require Import List Bool Arith Lia Permutation.
Import ListNotations.

(** ** Characters and strings *)

Definition str := list ascii.

Definition lit (s : string) : str := list_ascii_of_string s.
Arguments lit s%_string.

Definition code (c : ascii) : nat := nat_of_ascii c.

Definition between (lo hi n : nat) : bool := (lo <=? n) && (n <=? hi).

(** [str.isspace] on one character; the class [\s] of [re] is the same set. *)
Definition is_space (c : ascii) : bool :=
  let n := code c in
  between 9 13 n || between 28 32 n || (n =? 133) || (n =? 160).

(** The class [\d]. *)
Definition is_digit (c : ascii) : bool := between 48 57 (code c).

(** The class [\w]: letters, digits of every kind and the underscore. *)
Definition is_word (c : ascii) : bool :=
  let n := code c in
  between 48 57 n || between 65 90 n || (n =? 95) || between 97 122 n
  || (n =? 170) || (n =? 178) || (n =? 179) || (n =? 181) || (n =? 185)
  || (n =? 186) || between 188 190 n || between 192 214 n
  || between 216 246 n || between 248 255 n.

Definition is_upper (c : ascii) : bool :=
  let n := code c in
  between 65 90 n || (between 192 222 n && negb (n =? 215)).

(** [str.lower] on one character. *)
Definition lower_char (c : ascii) : ascii :=
  if is_upper c then ascii_of_nat (code c + 32) else c.

Definition lower (s : str) : str := map lower_char s.

Definition newline : ascii := ascii_of_nat 10.

(** [a == b] on strings. *)
Fixpoint str_eqb (a b : str) : bool :=
  match a, b with
  | [], [] => true
  | x :: a', y :: b' => Ascii.eqb x y && str_eqb a' b'
  | _, _ => false
  end.

Fixpoint lstrip (s : str) : str :=
  match s with
  | c :: t => if is_space c then lstrip t else s
  | [] => []
  end.

Definition rstrip (s : str) : str := rev (lstrip (rev s)).

(** [str.strip()]. *)
Definition strip (s : str) : str := rstrip (lstrip s).

Fixpoint starts_with (p s : str) : bool :=
  match p, s with
  | [], _ => true
  | a :: p', b :: s' => Ascii.eqb a b && starts_with p' s'
  | _ :: _, [] => false
  end.

(** [sub in s]. *)
Fixpoint contains (sub s : str) : bool :=
  starts_with sub s ||
  match s with
  | [] => false
  | _ :: t => contains sub t
  end.

(** [sep.join(parts)]. *)
Fixpoint join (sep : str) (parts : list str) : str :=
  match parts with
  | [] => []
  | [p] => p
  | p :: ps => p ++ sep ++ join sep ps
  end.

(** [s.split(sep, 1)] when [sep] occurs in [s]: the text before the first
    occurrence and the text after it; [None] when [sep] does not occur (the
    list Python returns then has one element). *)
Fixpoint split_once (sep s : str) : option (str * str) :=
  if starts_with sep s then Some ([], skipn (length sep) s)
  else match s with
       | [] => None
       | c :: t =>
           match split_once sep t with
           | Some (a, b) => Some (c :: a, b)
           | None => None
           end
       end.

(** [s.replace(old, new)]: the occurrences of [old] are taken from the left
    and do not overlap.  [skip] counts the characters of an occurrence that
    are still to be dropped. *)
Fixpoint replace_from (old new : str) (skip : nat) (s : str) : str :=
  match s with
  | [] => []
  | c :: t =>
      match skip with
      | S k => replace_from old new k t
      | O =>
          if starts_with old s
          then new ++ replace_from old new (length old - 1) t
          else c :: replace_from old new 0 t
      end
  end.

Definition replace (old new s : str) : str :=
  match old with
  | [] => new ++ flat_map (fun c => c :: new) s
  | _ :: _ => replace_from old new 0 s
  end.

(** [s.split(c)] for a separator of one character. *)
Fixpoint split_char (c : ascii) (s : str) : list str :=
  match s with
  | [] => [[]]
  | x :: t =>
      if Ascii.eqb x c then [] :: split_char c t
      else match split_char c t with
           | p :: ps => (x :: p) :: ps
           | [] => [[x]]
           end
  end.

(** [xs[-n:]] for [n > 0]. *)
Definition last_n {A} (n : nat) (xs : list A) : list A :=
  skipn (length xs - n) xs.

(** ** Numbers and JSON text *)

(** [str(n)] for a natural number. *)
Definition str_of_nat (n : nat) : str :=
  list_ascii_of_string (NilEmpty.string_of_uint (Nat.to_uint n)).

Definition dquote : ascii := ascii_of_nat 34.
Definition backslash : ascii := ascii_of_nat 92.

Definition hex_digit (n : nat) : ascii := nth n (lit "0123456789abcdef") "0"%char.

(** How [json.dumps] writes one character of a string (ensure_ascii is
    on): the quote and the backslash get a backslash, five control
    characters their letter, every other character outside 32..126 its
    code in four hexadecimal digits. *)
Definition json_escape (c : ascii) : str :=
  let n := code c in
  if n =? 34 then [backslash; dquote]
  else if n =? 92 then [backslash; backslash]
  else if n =? 10 then [backslash; "n"%char]
  else if n =? 13 then [backslash; "r"%char]
  else if n =? 9 then [backslash; "t"%char]
  else if n =? 8 then [backslash; "b"%char]
  else if n =? 12 then [backslash; "f"%char]
  else if between 32 126 n then [c]
  else backslash :: lit "u00" ++ [hex_digit (n / 16); hex_digit (n mod 16)].

Definition json_string (s : str) : str :=
  dquote :: flat_map json_escape s ++ [dquote].

Definition json_key (k : str) : str :=
  lit "  " ++ json_string k ++ lit ": ".

(** [json.dumps(items, indent=2)] for a list of strings that is the value
    of a key of the outer dict. *)
Definition json_list (items : list str) : str :=
  match items with
  | [] => lit "[]"
  | _ :: _ =>
      lit "[" ++ [newline] ++ lit "    " ++
      join (lit "," ++ [newline] ++ lit "    ") (map json_string items) ++
      [newline] ++ lit "  ]"
  end.

(** ** Regular expressions *)

Record flags := { ignorecase : bool; dotall : bool }.

Definition no_flags : flags := {| ignorecase := false; dotall := false |}.
Definition flags_I : flags := {| ignorecase := true; dotall := false |}.
Definition flags_IS : flags := {| ignorecase := true; dotall := true |}.

(** What matches one character. *)
Inductive atom :=
| Lit (c : ascii)          (* a literal character *)
| Cls (p : ascii -> bool)  (* a class: \s \S \d \w [^\]] *)
| Any.                     (* the dot *)

Inductive regex :=
| Eps
| Atom (a : atom)
| Star (a : atom)          (* a*  : longest first *)
| LazyStar (a : atom)      (* a*? : shortest first *)
| Bol                      (* ^ *)
| Eol                      (* $ *)
| Seq (r1 r2 : regex)
| Alt (r1 r2 : regex)
| Group (n : nat) (r : regex)
| Ahead (r : regex).       (* (?=r) *)

Definition Plus (a : atom) : regex := Seq (Atom a) (Star a).

Fixpoint Lits (s : str) : regex :=
  match s with
  | [] => Eps
  | c :: t => Seq (Atom (Lit c)) (Lits t)
  end.

(** A literal matches without regard to case under IGNORECASE; a class is
    not touched by the flags; the dot leaves the newline out unless DOTALL
    is set. *)
Definition atom_ok (f : flags) (a : atom) (c : ascii) : bool :=
  match a with
  | Lit x =>
      if ignorecase f then Ascii.eqb (lower_char c) (lower_char x)
      else Ascii.eqb c x
  | Cls p => p c
  | Any => dotall f || negb (Ascii.eqb c newline)
  end.

(** The matcher's state: how many characters lie behind, the text ahead and
    the groups captured so far (the latest first). *)
Record state := mkState { pos : nat; rest : str; caps : list (nat * str) }.

Definition set_cap (n : nat) (v : str) (s : state) : state :=
  mkState (pos s) (rest s) ((n, v) :: caps s).

Fixpoint star_greedy (ok : ascii -> bool) (p : nat) (l : str)
  (cs : list (nat * str)) : list state :=
  match l with
  | c :: t =>
      if ok c then star_greedy ok (S p) t cs ++ [mkState p l cs]
      else [mkState p l cs]
  | [] => [mkState p l cs]
  end.

Fixpoint star_lazy (ok : ascii -> bool) (p : nat) (l : str)
  (cs : list (nat * str)) : list state :=
  mkState p l cs ::
  match l with
  | c :: t => if ok c then star_lazy ok (S p) t cs else []
  | [] => []
  end.

(** Every match of [r] that starts in state [s], in the matcher's order of
    preference.  [$] matches at the end of the text and before a newline
    that ends it.  The lookaheads of the program hold no group, so [Ahead]
    gives the state back as it was. *)
Fixpoint run (f : flags) (r : regex) (s : state) : list state :=
  match r with
  | Eps => [s]
  | Atom a =>
      match rest s with
      | c :: t => if atom_ok f a c then [mkState (S (pos s)) t (caps s)] else []
      | [] => []
      end
  | Star a => star_greedy (atom_ok f a) (pos s) (rest s) (caps s)
  | LazyStar a => star_lazy (atom_ok f a) (pos s) (rest s) (caps s)
  | Bol => if pos s =? 0 then [s] else []
  | Eol =>
      match rest s with
      | [] => [s]
      | [c] => if Ascii.eqb c newline then [s] else []
      | _ => []
      end
  | Seq r1 r2 => flat_map (run f r2) (run f r1 s)
  | Alt r1 r2 => run f r1 s ++ run f r2 s
  | Group n r =>
      map (fun s' => set_cap n (firstn (pos s' - pos s) (rest s)) s')
          (run f r s)
  | Ahead r =>
      match run f r s with
      | [] => []
      | _ :: _ => [s]
      end
  end.

(** The match that starts at position [p], if there is one. *)
Definition match_at (f : flags) (r : regex) (p : nat) (l : str) : option state :=
  hd_error (run f r (mkState p l [])).

(** [re.match(r, text, f)]. *)
Definition re_match (f : flags) (r : regex) (text : str) : option state :=
  match_at f r 0 text.

Fixpoint search_from (f : flags) (r : regex) (p : nat) (l : str) : option state :=
  match match_at f r p l with
  | Some m => Some m
  | None =>
      match l with
      | [] => None
      | _ :: t => search_from f r (S p) t
      end
  end.

(** [re.search(r, text, f)]: the match at the leftmost position that has one. *)
Definition re_search (f : flags) (r : regex) (text : str) : option state :=
  search_from f r 0 text.

(** [m.group(n)]: [None] for a group that took no part in the match. *)
Fixpoint group (m : list (nat * str)) (n : nat) : option str :=
  match m with
  | [] => None
  | (k, v) :: m' => if k =? n then Some v else group m' n
  end.

(** [re.sub(r, repl, text)] for a pattern that matches no empty text, as
    both patterns of the program do (see [plus_match_moves]): the matches
    are taken from the left and do not overlap.  [skip] counts the
    characters of a match still to be dropped. *)
Fixpoint sub_from (f : flags) (r : regex) (repl : str) (p skip : nat)
  (l : str) : str :=
  match l with
  | [] => []
  | c :: t =>
      match skip with
      | S k => sub_from f r repl (S p) k t
      | O =>
          match match_at f r p l with
          | Some m =>
              match pos m - p with
              | S k => repl ++ sub_from f r repl (S p) k t
              | O => c :: sub_from f r repl (S p) 0 t
              end
          | None => c :: sub_from f r repl (S p) 0 t
          end
      end
  end.

Definition re_sub (f : flags) (r : regex) (repl text : str) : str :=
  sub_from f r repl 0 0 text.

(** ** Exceptions *)

Inductive exn := ValueError | AttributeError.

Inductive result (A : Type) :=
| Ok (a : A)
| Raise (e : exn).
Arguments Ok {A} a.
Arguments Raise {A} e.

Definition bind {A B} (x : result A) (k : A -> result B) : result B :=
  match x with
  | Ok a => k a
  | Raise e => Raise e
  end.

Notation "x <- c ;; k" := (bind c (fun x => k))
  (at level 61, c at next level, right associativity).

Infix ";;;" := Seq (at level 60, right associativity).

(** ** The program *)

Module Triage.

(** [KNOWLEDGE_BASE]: a dict, read in the order its entries are written. *)
Definition KNOWLEDGE_BASE : list (str * str) :=
  [ (lit "database connection timeout",
     lit "RUNBOOK-DB-001: Check RDS CPU utilization. If > 80%, scale up read replicas. If normal, check VPC security groups.");
    (lit "payment gateway timeout",
     lit "RUNBOOK-PAY-99: Verify Stripe API status page. If Stripe is up, check internal NAT gateway latency.");
    (lit "token signature validation",
     lit "RUNBOOK-AUTH-55: Rotate JWT public keys. Check if client clock skew > 5 minutes.");
    (lit "slow response",
     lit "RUNBOOK-PERF-12: Check Redis cache hit rate. If < 50%, flush cache or increase memory.") ].

Record LogEntry := mkLogEntry
  { timestamp : str; service : str; level : str; message : str }.

(** The classes [\S] and [[^\]]]. *)
Definition not_space (c : ascii) : bool := negb (is_space c).
Definition not_rbracket (c : ascii) : bool := negb (Ascii.eqb c "]"%char).

(** The pattern, its parts set apart:
    [^ (\S+) \s+ \[ ([^\]]+) \] \s+ (\w+) : \s+ ( .* ) $] *)
Definition log_pattern : regex :=
  Bol ;;; Group 1 (Plus (Cls not_space)) ;;; Plus (Cls is_space) ;;;
  Atom (Lit "["%char) ;;; Group 2 (Plus (Cls not_rbracket)) ;;; Atom (Lit "]"%char) ;;;
  Plus (Cls is_space) ;;; Group 3 (Plus (Cls is_word)) ;;; Atom (Lit ":"%char) ;;;
  Plus (Cls is_space) ;;; Group 4 (Star Any) ;;; Eol.

(** [m.groups()] holds the four groups of the match.  A group that took
    no part in a match would be [None] there; the pattern has no such
    group, so the last branch is never taken. *)
Definition parse_log_line (line : str) : option LogEntry :=
  let line := strip line in
  match line with
  | [] => None
  | _ :: _ =>
      match re_match no_flags log_pattern line with
      | None => None
      | Some m =>
          match group (caps m) 1, group (caps m) 2,
                group (caps m) 3, group (caps m) 4 with
          | Some ts, Some sv, Some lv, Some msg =>
              Some (mkLogEntry ts sv lv msg)
          | _, _, _, _ => None
          end
      end
  end.

(** The patterns [\d+] and [\s+]. *)
Definition digits_pattern : regex := Plus (Cls is_digit).
Definition spaces_pattern : regex := Plus (Cls is_space).

(** The two assignments to [normalized_msg]. *)
Definition normalize (msg : str) : str :=
  let normalized_msg := re_sub no_flags digits_pattern (lit "<NUM>") (lower msg) in
  strip (re_sub no_flags spaces_pattern (lit " ") normalized_msg).

Definition derive_incident_key (entry : LogEntry) : str :=
  service entry ++ lit "::" ++ normalize (message entry).

(** The dict of [group_incidents], a [defaultdict(list)]: the keys in the
    order they were first inserted, each with its list. *)
Definition groups_t := list (str * list LogEntry).

(** [groups[key].append(e)] *)
Fixpoint dict_append (key : str) (e : LogEntry) (groups : groups_t) : groups_t :=
  match groups with
  | [] => [(key, [e])]
  | (k, v) :: groups' =>
      if str_eqb k key then (k, v ++ [e]) :: groups'
      else (k, v) :: dict_append key e groups'
  end.

(** The test [e.level not in {"ERROR", "WARN"}], negated. *)
Definition actionable (e : LogEntry) : bool :=
  str_eqb (level e) (lit "ERROR") || str_eqb (level e) (lit "WARN").

Definition group_step (groups : groups_t) (e : LogEntry) : groups_t :=
  if actionable e then dict_append (derive_incident_key e) e groups
  else groups.

Definition group_incidents (entries : list LogEntry) : groups_t :=
  fold_left group_step entries [].

Definition fallback_runbook : str :=
  lit "No specific runbook found. Follow general triage SOP.".

Fixpoint scan_runbooks (kb : list (str * str)) (pattern : str) : str :=
  match kb with
  | [] => fallback_runbook
  | (keyword, runbook) :: kb' =>
      if contains keyword pattern then runbook
      else scan_runbooks kb' pattern
  end.

Definition retrieve_runbook (pattern : str) : str :=
  scan_runbooks KNOWLEDGE_BASE pattern.

(** The rendering f"{e.timestamp} [{e.level}] {e.message}". *)
Definition render (e : LogEntry) : str :=
  timestamp e ++ lit " [" ++ level e ++ lit "] " ++ message e.

Definition prompt_head : str := lit "
Given the logs, output a triage report.

[EXAMPLE]
Input Logs: 2024-01-01 [orders] ERROR connection timed out
Runbook context: Check DB.
Report:
Summary: Database connection failing intermittently.
Severity: P2
Root Cause: High database load or network partition.
Action Items: Check RDS CPU, Investigate VPC logs

[TARGET]
Input Logs:
".

Definition prompt_context : str := lit "
Runbook context: ".

Definition prompt_tail : str := lit "
Report:
".

(** [incident_key.split("::", 1)], unpacked into two names raises
    ValueError when the key holds no separator. *)
Definition build_summary_prompt (incident_key : str)
  (entries : list LogEntry) : result str :=
  match split_once (lit "::") incident_key with
  | None => Raise ValueError
  | Some (service, pattern) =>
      let logs_text := join [newline] (map render (last_n 5 entries)) in
      let runbook_context := retrieve_runbook pattern in
      Ok (strip (prompt_head ++ logs_text ++ prompt_context ++
                 runbook_context ++ prompt_tail))
  end.

Record report := mkReport
  { summary : str; severity : str; root_cause : str;
    action_items : list str }.

Definition default_report : report :=
  mkReport (lit "N/A") (lit "P3") (lit "N/A") [].

Definition spaces : regex := Star (Cls is_space).

(** [Summary: \s* (.*?) (?= \s* Severity: | $ )] *)
Definition summary_pattern : regex :=
  Lits (lit "Summary:") ;;; spaces ;;; Group 1 (LazyStar Any) ;;;
  Ahead (Alt (spaces ;;; Lits (lit "Severity:")) Eol).

(** [Severity: \s* (P\d) (?= \s* Root Cause: | $ )] *)
Definition severity_pattern : regex :=
  Lits (lit "Severity:") ;;; spaces ;;;
  Group 1 (Atom (Lit "P"%char) ;;; Atom (Cls is_digit)) ;;;
  Ahead (Alt (spaces ;;; Lits (lit "Root Cause:")) Eol).

(** [Root Cause: \s* (.*?) (?= \s* Action Items: | $ )] *)
Definition root_cause_pattern : regex :=
  Lits (lit "Root Cause:") ;;; spaces ;;; Group 1 (LazyStar Any) ;;;
  Ahead (Alt (spaces ;;; Lits (lit "Action Items:")) Eol).

(** [Action Items: \s* ( .* )] *)
Definition actions_pattern : regex :=
  Lits (lit "Action Items:") ;;; spaces ;;; Group 1 (Star Any).

(** [m.group(1).strip()]: a group that took no part is [None], and
    [None.strip()] raises AttributeError. *)
Definition group1_strip (m : state) : result str :=
  match group (caps m) 1 with
  | Some v => Ok (strip v)
  | None => Raise AttributeError
  end.

Definition not_empty (s : str) : bool :=
  match s with [] => false | _ :: _ => true end.

Definition parse_llm_output_to_json (text : str) : result report :=
  let data := default_report in
  let summary_match := re_search flags_IS summary_pattern text in
  let severity_match := re_search flags_I severity_pattern text in
  let root_cause_match := re_search flags_IS root_cause_pattern text in
  let actions_match := re_search flags_IS actions_pattern text in
  data <- match summary_match with
          | Some m =>
              v <- group1_strip m ;;
              Ok (mkReport v (severity data) (root_cause data) (action_items data))
          | None => Ok data
          end ;;
  data <- match severity_match with
          | Some m =>
              v <- group1_strip m ;;
              Ok (mkReport (summary data) v (root_cause data) (action_items data))
          | None => Ok data
          end ;;
  data <- match root_cause_match with
          | Some m =>
              v <- group1_strip m ;;
              Ok (mkReport (summary data) (severity data) v (action_items data))
          | None => Ok data
          end ;;
  match actions_match with
  | Some m =>
      raw_actions <- group1_strip m ;;
      let raw_actions := strip (replace (lit "[TARGET]") [] raw_actions) in
      Ok (mkReport (summary data) (severity data) (root_cause data)
            (filter not_empty (map strip (split_char ","%char raw_actions))))
  | None => Ok data
  end.

(** ** Loading and the driver *)

Definition LOG_PATH : str := lit "logs.txt".

(** [json.dumps(data, indent=2)] for the dict of the extractor, its keys in
    the order in which the dict was written. *)
Definition json_dumps (data : report) : str :=
  lit "{" ++ [newline] ++
  json_key (lit "summary") ++ json_string (summary data) ++ lit "," ++ [newline] ++
  json_key (lit "severity") ++ json_string (severity data) ++ lit "," ++ [newline] ++
  json_key (lit "root_cause") ++ json_string (root_cause data) ++ lit "," ++ [newline] ++
  json_key (lit "action_items") ++ json_list (action_items data) ++ [newline] ++
  lit "}".

(** The world outside the program.  A file at the path of the logs: there
    is none ([open] raises FileNotFoundError), [open] raises another
    exception (the path is a directory, or may not be read), or the file
    gives [lines] one by one, and after them, unless [whole], reading
    raises (a byte that is not UTF-8).  The text generator:
    [pipeline(...)] raises ([None]) or gives a generator, and a call
    [gen_pipe(prompt)[0]["generated_text"]] of that raises ([None]) or
    gives a text.  The standard output: whether [print] of a text
    succeeds there. *)
Inductive file :=
| Missing
| OpenFails
| Reads (lines : list str) (whole : bool).

Definition generator := str -> option str.

Definition stdout := str -> bool.

(** Where an exception of the world outside is raised. *)
Inductive outside := AtOpen | AtRead | AtPrint | AtPipeline | AtGenerator.

(** What ends a run: an index out of range, an exception of the
    program's own functions, or an exception of the world outside. *)
Inductive raised :=
| RaisedIndexError
| Raised (e : exn)
| RaisedOutside (w : outside).

Inductive outcome (A : Type) :=
| Done (a : A)
| Failed (r : raised).
Arguments Done {A} a.
Arguments Failed {A} r.

(** [print(text)] and then [next]: the texts printed, in order, and the
    exception that ends the run if there is one. *)
Definition print (accepts : stdout) (text : str)
  (next : list str * option raised) : list str * option raised :=
  if accepts text then (text :: fst next, snd next)
  else ([], Some (RaisedOutside AtPrint)).

(** [load_logs]: what it prints, and the list it returns or the exception
    that leaves it.  Only FileNotFoundError is caught. *)
Definition load_logs (accepts : stdout) (path : str) (f : file) :
  list str * outcome (list LogEntry) :=
  match f with
  | Missing =>
      let error := lit "Error: " ++ path ++ lit " not found." in
      if accepts error then ([error], Done [])
      else ([], Failed (RaisedOutside AtPrint))
  | OpenFails => ([], Failed (RaisedOutside AtOpen))
  | Reads lines whole =>
      let entries :=
        fold_left
          (fun entries line =>
             match parse_log_line line with
             | Some entry => entries ++ [entry]
             | None => entries
             end)
          lines [] in
      if whole then ([], Done entries)
      else ([], Failed (RaisedOutside AtRead))
  end.

(** The loop of [main] over [groups.items()], counted from [i]. *)
Fixpoint main_loop (accepts : stdout) (gen_pipe : generator) (i : nat)
  (groups : groups_t) : list str * option raised :=
  match groups with
  | [] => ([], None)
  | (incident_key, incident_entries) :: groups' =>
      match incident_entries with
      | [] => ([], Some RaisedIndexError)
      | first :: _ =>
          let service := service first in
          let count := length incident_entries in
          print accepts
            (lit "--- Incident #" ++ str_of_nat i ++ lit " [" ++ service ++
             lit "] (" ++ str_of_nat count ++ lit " events) ---")
            match build_summary_prompt incident_key incident_entries with
            | Raise e => ([], Some (Raised e))
            | Ok prompt =>
                match gen_pipe prompt with
                | None => ([], Some (RaisedOutside AtGenerator))
                | Some generated_text =>
                    let result := strip generated_text in
                    match parse_llm_output_to_json result with
                    | Raise e => ([], Some (Raised e))
                    | Ok structured_data =>
                        print accepts (json_dumps structured_data)
                          (print accepts [newline]
                             (main_loop accepts gen_pipe (S i) groups'))
                    end
                end
            end
      end
  end.

Definition banner : str := lit "
=== AI Ops Enterprise Triage Report (Phase 2) ===
".

(** [main], with the standard output, what [pipeline(...)] does and the
    file at [LOG_PATH] as arguments: the texts it prints, in order, and
    the exception that ends it if there is one. *)
Definition main (accepts : stdout) (pipeline : option generator) (f : file) :
  list str * option raised :=
  print accepts (lit "Loading logs...")
    (let (err, loaded) := load_logs accepts LOG_PATH f in
     let (out, r) :=
       match loaded with
       | Failed r => ([], Some r)
       | Done [] => ([], None)
       | Done ((_ :: _) as entries) =>
           let groups := group_incidents entries in
           print accepts
             (lit "Total parsed log entries: " ++ str_of_nat (length entries))
             (print accepts
                (lit "Total incident groups: " ++ str_of_nat (length groups))
                (print accepts (lit "Loading generation model...")
                   match pipeline with
                   | None => ([], Some (RaisedOutside AtPipeline))
                   | Some gen_pipe =>
                       print accepts banner
                         (main_loop accepts gen_pipe 1 groups)
                   end))
       end in
     (err ++ out, r)).

End Triage.

Import Triage.

(** ** Vocabulary of the specification *)

(** The length of the longest prefix of [l] whose characters satisfy [ok]. *)
Fixpoint run_len (ok : ascii -> bool) (l : str) : nat :=
  match l with
  | c :: t => if ok c then S (run_len ok t) else 0
  | [] => 0
  end.

(** The text starts with a character that satisfies [ok]. *)
Definition starts_ok (ok : ascii -> bool) (l : str) : bool :=
  match l with
  | c :: _ => ok c
  | [] => false
  end.

(** [Matches f r s s']: the pattern [r] can take the matcher from [s] to
    [s'].  This is the declarative reading of a pattern; [run] lists the
    states it relates to [s] ([run_In]). *)
Fixpoint Matches (f : flags) (r : regex) (s s' : state) : Prop :=
  match r with
  | Eps => s' = s
  | Atom a =>
      exists c, rest s = c :: rest s' /\ atom_ok f a c = true /\
                pos s' = S (pos s) /\ caps s' = caps s
  | Star a | LazyStar a =>
      exists w, rest s = w ++ rest s' /\ forallb (atom_ok f a) w = true /\
                pos s' = pos s + length w /\ caps s' = caps s
  | Bol => pos s = 0 /\ s' = s
  | Eol => (rest s = [] \/ rest s = [newline]) /\ s' = s
  | Seq r1 r2 => exists m, Matches f r1 s m /\ Matches f r2 m s'
  | Alt r1 r2 => Matches f r1 s s' \/ Matches f r2 s s'
  | Group n r =>
      exists m, Matches f r s m /\
                s' = set_cap n (firstn (pos m - pos s) (rest s)) m
  | Ahead r => (exists m, Matches f r s m) /\ s' = s
  end.

(** Every maximal run of characters that satisfy [ok] becomes [repl];
    [inrun] says that the character before belonged to a run. *)
Fixpoint replace_runs (ok : ascii -> bool) (repl : str) (inrun : bool)
  (l : str) : str :=
  match l with
  | [] => []
  | c :: t =>
      if ok c then
        if inrun then replace_runs ok repl true t
        else repl ++ replace_runs ok repl true t
      else c :: replace_runs ok repl false t
  end.

(** Every run of white space becomes one space. *)
Definition collapse (b : bool) (l : str) : str :=
  replace_runs is_space (lit " ") b l.

(** [digit_variant m1 m2]: the two texts are the same character for
    character, but for their maximal runs of decimal digits, which stand at
    the same places and may differ. *)
Inductive digit_variant : str -> str -> Prop :=
| dv_nil : digit_variant [] []
| dv_char c m1 m2 :
    is_digit c = false -> digit_variant m1 m2 ->
    digit_variant (c :: m1) (c :: m2)
| dv_run d1 d2 m1 m2 :
    d1 <> [] -> d2 <> [] ->
    forallb is_digit d1 = true -> forallb is_digit d2 = true ->
    starts_ok is_digit m1 = false -> starts_ok is_digit m2 = false ->
    digit_variant m1 m2 ->
    digit_variant (d1 ++ m1) (d2 ++ m2).

(** The two messages differ in their digit runs and in the white space
    around them, and in nothing else. *)
Definition same_but_digits_and_margins (m1 m2 : str) : Prop :=
  exists l1 b1 r1 l2 b2 r2,
    m1 = l1 ++ b1 ++ r1 /\ m2 = l2 ++ b2 ++ r2 /\
    forallb is_space l1 = true /\ forallb is_space r1 = true /\
    forallb is_space l2 = true /\ forallb is_space r2 = true /\
    digit_variant b1 b2.

(** Every maximal run of digits becomes the placeholder. *)
Definition sub_digits (l : str) : str :=
  replace_runs is_digit (lit "<NUM>") false l.

Definition not_newline (c : ascii) : bool := negb (Ascii.eqb c newline).

(** [log_grammar s ts sv lv msg]: the text [s] reads
    [ts], white space, [sv] in square brackets, white space, [lv], a colon,
    white space and [msg], where [ts] holds no white space, [sv] no closing
    bracket, [lv] word characters only, and [msg] is the rest of the line
    after the white space. *)
Definition log_grammar (s ts sv lv msg : str) : Prop :=
  exists w1 w2 w3,
    s = ts ++ w1 ++ lit "[" ++ sv ++ lit "]" ++ w2 ++ lv ++ lit ":" ++ w3 ++ msg /\
    ts <> [] /\ forallb not_space ts = true /\
    w1 <> [] /\ forallb is_space w1 = true /\
    sv <> [] /\ forallb not_rbracket sv = true /\
    w2 <> [] /\ forallb is_space w2 = true /\
    lv <> [] /\ forallb is_word lv = true /\
    w3 <> [] /\ forallb is_space w3 = true /\
    forallb not_newline msg = true /\ starts_ok is_space msg = false.

(** [sub] occurs in [s] as a substring. *)
Definition occurs_in (sub s : str) : Prop :=
  exists pre post, s = pre ++ sub ++ post.

(** The list a key holds, empty for a key that is absent. *)
Fixpoint dict_get (key : str) (groups : groups_t) : list LogEntry :=
  match groups with
  | [] => []
  | (k, v) :: groups' => if str_eqb k key then v else dict_get key groups'
  end.

(** The keys of [ks] in the order each is first seen, those of [seen]
    left out. *)
Fixpoint first_seen (seen ks : list str) : list str :=
  match ks with
  | [] => []
  | k :: t =>
      if existsb (fun x => str_eqb x k) seen then first_seen seen t
      else k :: first_seen (seen ++ [k]) t
  end.

(** The records of [entries] that [group_incidents] files under [key]. *)
Definition filed_under (key : str) (entries : list LogEntry) : list LogEntry :=
  filter (fun e => actionable e && str_eqb (derive_incident_key e) key) entries.

(** The severity a text gets: the stripped group 1 of the first match of
    the severity pattern, and the default when nothing matches. *)
Definition severity_of (text : str) : str :=
  match re_search flags_I severity_pattern text with
  | Some m =>
      match group (caps m) 1 with
      | Some v => strip v
      | None => lit "P3"
      end
  | None => lit "P3"
  end.





(** ** Vocabulary of the further properties *)

(** No two characters of white space stand side by side. *)
Fixpoint no_adjacent_spaces (l : str) : bool :=
  match l with
  | c :: t => negb (is_space c && starts_ok is_space t) && no_adjacent_spaces t
  | [] => true
  end.

(** Every character of white space is the space itself. *)
Definition spaces_plain (l : str) : bool :=
  forallb (fun c => negb (is_space c) || Ascii.eqb c " ") l.

Definition no_digit (l : str) : bool := forallb (fun c => negb (is_digit c)) l.

(** A keyword that normalizing leaves as it is: it is not empty, holds no
    digit, and its white space is single spaces between other characters. *)
Fixpoint single_spaced (k : str) : bool :=
  match k with
  | c :: t =>
      (negb (is_space c) ||
       (Ascii.eqb c " " && not_empty t && negb (starts_ok is_space t)))
      && single_spaced t
  | [] => true
  end.

Definition keyword_clean (k : str) : bool :=
  not_empty k && no_digit k && single_spaced k && negb (starts_ok is_space k).

(** The number of records that the groups hold in all. *)
Definition group_total (groups : groups_t) : nat :=
  list_sum (map (fun g => length (snd g)) groups).

(** A text field of the report: the stripped group 1 of the first match
    of the field's pattern, and the default when nothing matches. *)
Definition field_of (f : flags) (r : regex) (default text : str) : str :=
  match re_search f r text with
  | Some m =>
      match group (caps m) 1 with
      | Some v => strip v
      | None => default
      end
  | None => default
  end.

(** The action items of a text. *)
Definition actions_of (text : str) : list str :=
  match re_search flags_IS actions_pattern text with
  | Some m =>
      match group (caps m) 1 with
      | Some v =>
          filter not_empty
            (map strip
               (split_char ","%char
                  (strip (replace (lit "[TARGET]") [] (strip v)))))
      | None => []
      end
  | None => []
  end.

(** The records of the lines that parse. *)
Definition parsed (lines : list str) : list LogEntry :=
  flat_map (fun line => match parse_log_line line with
                        | Some e => [e]
                        | None => []
                        end) lines.





(** The run ended well, or with an exception of the world outside. *)
Definition from_outside (r : option raised) : Prop :=
  r = None \/ exists w, r = Some (RaisedOutside w).

(** ** Sample records *)

Definition up30 : LogEntry :=
  mkLogEntry (lit "t1") (lit "orders") (lit "ERROR") (lit " Up 30s").
Definition up4500 : LogEntry :=
  mkLogEntry (lit "t2") (lit "orders") (lit "WARN") (lit "Up 4500s  ").

Definition db_err : LogEntry :=
  mkLogEntry (lit "t1") (lit "db") (lit "ERROR") (lit "timeout after 30s").
Definition db_info : LogEntry :=
  mkLogEntry (lit "t2") (lit "db") (lit "INFO") (lit "timeout after 31s").
Definition web_warn : LogEntry :=
  mkLogEntry (lit "t3") (lit "web") (lit "WARN") (lit "slow response 900ms").
Definition db_err' : LogEntry :=
  mkLogEntry (lit "t4") (lit "db") (lit "ERROR") (lit "Timeout after 45s").

Definition orders_line_30 : str :=
  lit "2024-01-01T00:00:00 [orders] ERROR: connection timed out after 30s".
Definition orders_line_45 : str :=
  lit "2024-01-01T00:00:05 [orders] ERROR: connection timed out after 45s".
Definition orders_30 : LogEntry :=
  mkLogEntry (lit "2024-01-01T00:00:00") (lit "orders") (lit "ERROR")
    (lit "connection timed out after 30s").
Definition orders_45 : LogEntry :=
  mkLogEntry (lit "2024-01-01T00:00:05") (lit "orders") (lit "ERROR")
    (lit "connection timed out after 45s").
Definition orders_pattern : str := lit "connection timed out after <NUM>s".

Definition Orders_30 : LogEntry :=
  mkLogEntry (lit "2024-01-01T00:00:09") (lit "Orders") (lit "ERROR")
    (lit "connection timed out after 30s").

(** ** The matcher *)

Section Matcher.

Variable f : flags.

Lemma state_eta (s : state) : mkState (pos s) (rest s) (caps s) = s.
Proof. destruct s; reflexivity. Qed.

Lemma hd_error_app_some {A} (l1 l2 : list A) (x : A) :
  hd_error l1 = Some x -> hd_error (l1 ++ l2) = Some x.
Proof. destruct l1; simpl; [discriminate | auto]. Qed.

Lemma hd_error_flat_map {A B} (g : A -> list B) (l : list A) (x : A) (y : B) :
  hd_error l = Some x -> hd_error (g x) = Some y ->
  hd_error (flat_map g l) = Some y.
Proof.
  destruct l as [|a l]; simpl; [discriminate |].
  intros [= ->] Hy. now apply hd_error_app_some.
Qed.


Lemma hd_error_in {A} (l : list A) (x : A) : hd_error l = Some x -> In x l.
Proof. destruct l; simpl; [discriminate | intros [= ->]; now left]. Qed.

Lemma run_len_app ok (w l : str) :
  forallb ok w = true -> starts_ok ok l = false ->
  run_len ok (w ++ l) = length w.
Proof.
  induction w as [|c w IH]; simpl; intros Hw Hl.
  - destruct l as [|c t]; simpl in *; [reflexivity | now rewrite Hl].
  - apply andb_true_iff in Hw as [-> Hw]. now rewrite IH.
Qed.

Lemma run_len_split ok (l : str) :
  l = firstn (run_len ok l) l ++ skipn (run_len ok l) l /\
  forallb ok (firstn (run_len ok l) l) = true /\
  starts_ok ok (skipn (run_len ok l) l) = false.
Proof.
  induction l as [|c t IH]; simpl; [auto |].
  destruct (ok c) eqn:Hc; simpl.
  - rewrite Hc. destruct IH as (E & F & G). repeat split; auto. now f_equal.
  - rewrite Hc. auto.
Qed.

(** The longest run is the first match of a greedy star. *)
Lemma star_greedy_hd ok p l cs :
  hd_error (star_greedy ok p l cs) =
  Some (mkState (p + run_len ok l) (skipn (run_len ok l) l) cs).
Proof.
  revert p. induction l as [|c t IH]; intros p; simpl.
  - now rewrite Nat.add_0_r.
  - destruct (ok c); simpl.
    + erewrite hd_error_app_some by apply IH. do 2 f_equal. lia.
    + now rewrite Nat.add_0_r.
Qed.

Lemma star_lazy_hd ok p l cs :
  hd_error (star_lazy ok p l cs) = Some (mkState p l cs).
Proof. destruct l; reflexivity. Qed.

Lemma star_greedy_In ok p l cs s' :
  In s' (star_greedy ok p l cs) <->
  exists w, l = w ++ rest s' /\ forallb ok w = true /\
            pos s' = p + length w /\ caps s' = cs.
Proof.
  revert p. induction l as [|c t IH]; intros p; simpl.
  - split.
    + intros [<- | []]. exists []. simpl. auto.
    + intros (w & E & _ & P & C). left.
      symmetry in E. apply app_eq_nil in E as [-> E].
      destruct s'; simpl in *. subst. f_equal. lia.
  - assert (Here : forall w, c :: t = w ++ rest s' -> w = [] ->
              pos s' = p + length w -> caps s' = cs ->
              mkState p (c :: t) cs = s').
    { intros w E -> P C. destruct s'; simpl in *. subst. f_equal. lia. }
    destruct (ok c) eqn:Hc.
    + rewrite in_app_iff, IH. simpl. split.
      * intros [(w & E & F & P & C) | [<- | []]].
        -- exists (c :: w). simpl. rewrite Hc, E. repeat split; auto. lia.
        -- exists []. simpl. auto.
      * intros (w & E & F & P & C). destruct w as [|d w].
        -- right. left. eapply Here; eauto.
        -- left. simpl in E, F, P. injection E as -> E.
           apply andb_true_iff in F as [_ F].
           exists w. repeat split; auto. lia.
    + simpl. split.
      * intros [<- | []]. exists []. simpl. auto.
      * intros (w & E & F & P & C). left. destruct w as [|d w].
        -- eapply Here; eauto.
        -- simpl in E, F. injection E as -> E. rewrite Hc in F. discriminate.
Qed.

Lemma star_lazy_In ok p l cs s' :
  In s' (star_lazy ok p l cs) <->
  exists w, l = w ++ rest s' /\ forallb ok w = true /\
            pos s' = p + length w /\ caps s' = cs.
Proof.
  revert p. induction l as [|c t IH]; intros p.
  - simpl. split.
    + intros [<- | []]. exists []. simpl. auto.
    + intros (w & E & _ & P & C). left.
      symmetry in E. apply app_eq_nil in E as [-> E].
      destruct s'; simpl in *. subst. f_equal. lia.
  - assert (Here : forall w, c :: t = w ++ rest s' -> w = [] ->
              pos s' = p + length w -> caps s' = cs ->
              mkState p (c :: t) cs = s').
    { intros w E -> P C. destruct s'; simpl in *. subst. f_equal. lia. }
    cbn [star_lazy In]. destruct (ok c) eqn:Hc.
    + rewrite IH. split.
      * intros [<- | (w & E & F & P & C)].
        -- exists []. simpl. auto.
        -- exists (c :: w). simpl. rewrite Hc, E. repeat split; auto. lia.
      * intros (w & E & F & P & C). destruct w as [|d w].
        -- left. eapply Here; eauto.
        -- right. simpl in E, F, P. injection E as -> E.
           apply andb_true_iff in F as [_ F].
           exists w. repeat split; auto. lia.
    + split.
      * intros [<- | []]. exists []. simpl. auto.
      * intros (w & E & F & P & C). left. destruct w as [|d w].
        -- eapply Here; eauto.
        -- simpl in E, F. injection E as -> E. rewrite Hc in F. discriminate.
Qed.

(** [run] lists exactly the states that [Matches] relates to the start. *)
Lemma run_In (r : regex) : forall s s', In s' (run f r s) <-> Matches f r s s'.
Proof.
  induction r; intros s s'; simpl.
  - split; [intros [<- | []]; reflexivity | intros ->; now left].
  - destruct (rest s) as [|c t] eqn:E.
    + split; [intros [] | intros (c & H & _); discriminate].
    + destruct (atom_ok f a c) eqn:Hc; simpl.
      * split.
        -- intros [<- | []]. exists c. simpl. auto.
        -- intros (c' & H & Hc' & P & C). left. injection H as <- ->.
           destruct s'; simpl in *. now subst.
      * split; [intros [] |].
        intros (c' & H & Hc' & _). injection H as <- _. congruence.
  - apply star_greedy_In.
  - apply star_lazy_In.
  - destruct (pos s =? 0) eqn:E; simpl.
    + apply Nat.eqb_eq in E. split; [intros [<- | []]; auto | intros [_ ->]; now left].
    + apply Nat.eqb_neq in E. split; [intros [] | intros [H _]; contradiction].
  - destruct (rest s) as [|c [|d t]] eqn:E; simpl.
    + split; [intros [<- | []]; auto | intros [_ ->]; now left].
    + destruct (Ascii.eqb c newline) eqn:Hc; simpl.
      * apply Ascii.eqb_eq in Hc. subst c.
        split; [intros [<- | []]; auto | intros [_ ->]; now left].
      * apply Ascii.eqb_neq in Hc.
        split; [intros [] | intros [[H | H] _]; congruence].
    + split; [intros [] | intros [[H | H] _]; discriminate].
  - rewrite in_flat_map. split.
    + intros (m & H1 & H2). exists m. split; [now apply IHr1 | now apply IHr2].
    + intros (m & H1 & H2). exists m. split; [now apply IHr1 | now apply IHr2].
  - rewrite in_app_iff, IHr1, IHr2. reflexivity.
  - rewrite in_map_iff. split.
    + intros (m & <- & H). exists m. split; [now apply IHr | reflexivity].
    + intros (m & H & ->). exists m. split; [reflexivity | now apply IHr].
  - destruct (run f r s) as [|m l] eqn:E; simpl.
    + split; [intros [] |]. intros [(m & H) _].
      apply IHr in H. rewrite E in H. destruct H.
    + split.
      * intros [<- | []]. split; [| reflexivity].
        exists m. apply IHr. rewrite E. now left.
      * intros [_ ->]. now left.
Qed.

Lemma match_at_sound r p l m :
  match_at f r p l = Some m -> Matches f r (mkState p l []) m.
Proof. intros H. apply run_In. now apply hd_error_in. Qed.


(** A search finds a match that starts at some suffix of the text. *)
Lemma search_from_sound r : forall l p m,
  search_from f r p l = Some m ->
  exists pre suf, l = pre ++ suf /\ Matches f r (mkState (p + length pre) suf []) m.
Proof.
  induction l as [|c t IH]; intros p m; simpl.
  - destruct (match_at f r p []) eqn:E; [| discriminate].
    intros [= ->]. exists [], []. simpl. rewrite Nat.add_0_r.
    split; [reflexivity | now apply match_at_sound].
  - destruct (match_at f r p (c :: t)) eqn:E.
    + intros [= ->]. exists [], (c :: t). simpl. rewrite Nat.add_0_r.
      split; [reflexivity | now apply match_at_sound].
    + intros H. apply IH in H as (pre & suf & -> & H).
      exists (c :: pre), suf. simpl. split; [reflexivity |].
      now replace (p + S (length pre)) with (S p + length pre) by lia.
Qed.


End Matcher.

(** ** Character classes *)

Ltac each_char c := destruct c as [[] [] [] [] [] [] [] []].

Lemma space_not_digit c : is_space c = true -> is_digit c = false.
Proof. each_char c; vm_compute; congruence. Qed.

Lemma lower_digit c : is_digit (lower_char c) = is_digit c.
Proof. each_char c; reflexivity. Qed.

Lemma lower_space_id c : is_space c = true -> lower_char c = c.
Proof. each_char c; vm_compute; congruence. Qed.

Lemma lower_digit_id c : is_digit c = true -> lower_char c = c.
Proof. each_char c; vm_compute; congruence. Qed.

(** ** Replacing runs: what [re.sub] does with a pattern [c+] *)

Section Plus.

Variables (f : flags) (ok : ascii -> bool) (repl : str).

Lemma plus_match_at q c t :
  match_at f (Plus (Cls ok)) q (c :: t) =
  if ok c then Some (mkState (S q + run_len ok t) (skipn (run_len ok t) t) [])
  else None.
Proof.
  unfold match_at, Plus. cbn [run rest pos caps atom_ok].
  destruct (ok c); [| reflexivity].
  cbn [flat_map run rest pos caps atom_ok]. rewrite app_nil_r.
  apply star_greedy_hd.
Qed.

(** A match of [c+] takes at least one character. *)
Lemma plus_match_moves q l m :
  match_at f (Plus (Cls ok)) q l = Some m -> q < pos m.
Proof.
  destruct l as [|c t]; [discriminate |].
  rewrite plus_match_at. destruct (ok c); [| discriminate].
  intros [= <-]. simpl. lia.
Qed.

Lemma sub_from_plus : forall l q,
  sub_from f (Plus (Cls ok)) repl q 0 l = replace_runs ok repl false l /\
  sub_from f (Plus (Cls ok)) repl q (run_len ok l) l = replace_runs ok repl true l.
Proof.
  induction l as [|c t IH]; intros q; [split; reflexivity |].
  assert (A : sub_from f (Plus (Cls ok)) repl q 0 (c :: t) =
              replace_runs ok repl false (c :: t)).
  { cbn [sub_from replace_runs]. rewrite plus_match_at.
    destruct (ok c).
    - cbn [pos]. replace (S q + run_len ok t - q) with (S (run_len ok t)) by lia.
      f_equal. apply IH.
    - f_equal. apply IH. }
  split; [exact A |].
  cbn [run_len]. destruct (ok c) eqn:Hc.
  - cbn [sub_from replace_runs]. rewrite Hc. apply IH.
  - rewrite A. cbn [replace_runs]. now rewrite Hc.
Qed.

Lemma re_sub_plus l :
  re_sub f (Plus (Cls ok)) repl l = replace_runs ok repl false l.
Proof. apply sub_from_plus. Qed.

Lemma replace_runs_start b l :
  starts_ok ok l = false -> replace_runs ok repl b l = replace_runs ok repl false l.
Proof.
  destruct l as [|c t]; simpl; [reflexivity |]. now intros ->.
Qed.

Lemma replace_runs_skip w l :
  forallb ok w = true ->
  replace_runs ok repl true (w ++ l) = replace_runs ok repl true l.
Proof.
  induction w as [|c w IH]; simpl; [reflexivity |].
  intros H. apply andb_true_iff in H as [-> H]. auto.
Qed.

(** A run followed by something else becomes one [repl]. *)
Lemma replace_runs_run w l :
  w <> [] -> forallb ok w = true -> starts_ok ok l = false ->
  replace_runs ok repl false (w ++ l) = repl ++ replace_runs ok repl false l.
Proof.
  destruct w as [|c w]; [congruence |]. simpl. intros _ H Hl.
  apply andb_true_iff in H as [-> H]. f_equal.
  rewrite replace_runs_skip by assumption. now apply replace_runs_start.
Qed.

(** Text outside the class is kept. *)
Lemma replace_runs_keep w l :
  forallb (fun c => negb (ok c)) w = true ->
  replace_runs ok repl false (w ++ l) = w ++ replace_runs ok repl false l.
Proof.
  induction w as [|c w IH]; simpl; [reflexivity |].
  intros H. apply andb_true_iff in H as [Hc H].
  apply negb_true_iff in Hc. rewrite Hc. f_equal. auto.
Qed.

End Plus.

(** ** Stripping *)

Lemma lstrip_spaces w l : forallb is_space w = true -> lstrip (w ++ l) = lstrip l.
Proof.
  induction w as [|c w IH]; simpl; [reflexivity |].
  intros H. apply andb_true_iff in H as [-> H]. auto.
Qed.

Lemma lstrip_starts l : starts_ok is_space (lstrip l) = false.
Proof.
  induction l as [|c t IH]; simpl; [reflexivity |].
  destruct (is_space c) eqn:E; [exact IH | simpl; exact E].
Qed.

Lemma lstrip_id l : starts_ok is_space l = false -> lstrip l = l.
Proof. destruct l as [|c t]; simpl; [reflexivity | now intros ->]. Qed.

Lemma lstrip_snoc l c :
  lstrip (l ++ [c]) =
  match lstrip l with
  | [] => if is_space c then [] else [c]
  | _ :: _ => lstrip l ++ [c]
  end.
Proof.
  induction l as [|d l IH]; simpl.
  - destruct (is_space c); reflexivity.
  - destruct (is_space d); [exact IH | reflexivity].
Qed.

Lemma rstrip_cons c l :
  rstrip (c :: l) =
  match rstrip l with
  | [] => if is_space c then [] else [c]
  | _ :: _ => c :: rstrip l
  end.
Proof.
  unfold rstrip. simpl rev. rewrite lstrip_snoc.
  destruct (lstrip (rev l)) as [|d k] eqn:E.
  - simpl. destruct (is_space c); reflexivity.
  - rewrite rev_app_distr. simpl rev at 1. cbn [app].
    destruct (rev (d :: k)) eqn:R; [| reflexivity].
    apply (f_equal (@length ascii)) in R. rewrite length_rev in R. discriminate.
Qed.

Lemma rstrip_congr a l l' : rstrip l = rstrip l' -> rstrip (a ++ l) = rstrip (a ++ l').
Proof.
  intros H. induction a as [|c a IH]; simpl; [exact H |].
  now rewrite !rstrip_cons, IH.
Qed.

(** After a character that is no space, trailing spaces go. *)
Lemma rstrip_snoc_spaces l c w :
  is_space c = false -> forallb is_space w = true -> rstrip (l ++ c :: w) = l ++ [c].
Proof.
  intros Hc Hw. unfold rstrip. rewrite rev_app_distr. simpl rev.
  rewrite <- app_assoc, lstrip_spaces.
  - simpl. rewrite Hc. simpl. now rewrite rev_involutive.
  - rewrite forallb_forall in *. intros x Hx. apply Hw. now apply in_rev.
Qed.

Lemma lstrip_app_spaces l w :
  forallb is_space w = true -> exists w', forallb is_space w' = true /\ lstrip (l ++ w) = lstrip l ++ w'.
Proof.
  intros Hw. induction l as [|c l IH]; simpl.
  - exists []. split; [reflexivity |]. rewrite <- (app_nil_r w).
    now rewrite lstrip_spaces.
  - destruct (is_space c); [exact IH |]. now exists w.
Qed.

(** ** Collapsing white space and stripping *)

Lemma collapse_true l : collapse true l = collapse false (lstrip l).
Proof.
  unfold collapse. induction l as [|c t IH]; simpl; [reflexivity |].
  destruct (is_space c) eqn:E; [exact IH |]. simpl. now rewrite E.
Qed.

Lemma lstrip_collapse_id l :
  starts_ok is_space l = false -> lstrip (collapse false l) = collapse false l.
Proof.
  unfold collapse. destruct l as [|c t]; simpl; [reflexivity |].
  intros E. rewrite E. simpl. now rewrite E.
Qed.

Lemma lstrip_collapse l : lstrip (collapse false l) = collapse false (lstrip l).
Proof.
  induction l as [|c t IH]; [reflexivity |].
  unfold collapse at 1. cbn [replace_runs lstrip].
  destruct (is_space c) eqn:E.
  - change (lstrip (collapse true t) = collapse false (lstrip t)).
    rewrite collapse_true. apply lstrip_collapse_id, lstrip_starts.
  - cbn [lstrip]. rewrite E. unfold collapse. cbn [replace_runs]. now rewrite E.
Qed.

Lemma collapse_spaces_true w : forallb is_space w = true -> collapse true w = [].
Proof.
  intros H. rewrite collapse_true. rewrite <- (app_nil_r w).
  now rewrite lstrip_spaces.
Qed.

Lemma rstrip_collapse b l w :
  forallb is_space w = true -> rstrip (collapse b (l ++ w)) = rstrip (collapse b l).
Proof.
  intros Hw. revert b. induction l as [|c t IH]; intros b.
  - simpl app. destruct b.
    + now rewrite collapse_spaces_true.
    + destruct w as [|c w]; [reflexivity |]. simpl in Hw.
      apply andb_true_iff in Hw as [Hc Hw].
      unfold collapse. cbn [replace_runs]. rewrite Hc.
      change (rstrip (lit " " ++ collapse true w) = rstrip []).
      now rewrite collapse_spaces_true.
  - unfold collapse. cbn [app replace_runs].
    destruct (is_space c); [destruct b |].
    + apply IH.
    + apply rstrip_congr, IH.
    + apply (rstrip_congr [c]), IH.
Qed.

(** White space around a text leaves no trace after collapsing and
    stripping. *)
Lemma strip_collapse_around l x r :
  forallb is_space l = true -> forallb is_space r = true ->
  strip (collapse false (l ++ x ++ r)) = strip (collapse false x).
Proof.
  intros Hl Hr. unfold strip.
  rewrite !lstrip_collapse, lstrip_spaces by assumption.
  destruct (lstrip_app_spaces x r Hr) as (w & Hw & ->).
  now apply rstrip_collapse.
Qed.

(** ** Incident keys *)

Lemma normalize_eq m : normalize m = strip (collapse false (sub_digits (lower m))).
Proof.
  unfold normalize, digits_pattern, spaces_pattern. now rewrite !re_sub_plus.
Qed.

Lemma lower_spaces w : forallb is_space w = true -> lower w = w.
Proof.
  induction w as [|c w IH]; simpl; [reflexivity |].
  intros H. apply andb_true_iff in H as [Hc H].
  now rewrite lower_space_id, IH.
Qed.

Lemma lower_digits w : forallb is_digit w = true -> lower w = w.
Proof.
  induction w as [|c w IH]; simpl; [reflexivity |].
  intros H. apply andb_true_iff in H as [Hc H].
  now rewrite lower_digit_id, IH.
Qed.

Lemma spaces_no_digits w :
  forallb is_space w = true -> forallb (fun c => negb (is_digit c)) w = true.
Proof.
  induction w as [|c w IH]; simpl; [reflexivity |].
  intros H. apply andb_true_iff in H as [Hc H].
  now rewrite (space_not_digit c Hc), IH.
Qed.

Lemma sub_digits_spaces w l :
  forallb is_space w = true -> sub_digits (w ++ l) = w ++ sub_digits l.
Proof. intros H. apply replace_runs_keep. now apply spaces_no_digits. Qed.

Lemma spaces_start_no_digit w :
  forallb is_space w = true -> starts_ok is_digit w = false.
Proof.
  destruct w as [|c w]; simpl; [reflexivity |].
  intros H. apply andb_true_iff in H as [Hc _]. now apply space_not_digit.
Qed.

Lemma starts_lower_app m t :
  starts_ok is_digit m = false -> starts_ok is_digit t = false ->
  starts_ok is_digit (lower m ++ t) = false.
Proof.
  destruct m as [|c m]; simpl; [auto |]. intros H _. now rewrite lower_digit.
Qed.

(** Both texts of a [digit_variant] pair turn into the same text, whatever
    follows them, once the digit runs are replaced. *)
Lemma digit_variant_sub b1 b2 :
  digit_variant b1 b2 ->
  exists p,
    (forall t, starts_ok is_digit t = false ->
       sub_digits (lower b1 ++ t) = p ++ sub_digits t) /\
    (forall t, starts_ok is_digit t = false ->
       sub_digits (lower b2 ++ t) = p ++ sub_digits t).
Proof.
  induction 1 as [| c m1 m2 Hc _ (p & IH1 & IH2)
                  | d1 d2 m1 m2 N1 N2 D1 D2 S1 S2 _ (p & IH1 & IH2)].
  - exists []. split; reflexivity.
  - exists (lower_char c :: p).
    assert (E : is_digit (lower_char c) = false) by now rewrite lower_digit.
    split; intros t Ht; unfold sub_digits in *; simpl; rewrite E; f_equal; auto.
  - exists (lit "<NUM>" ++ p).
    split; intros t Ht; unfold lower; rewrite map_app; fold (lower d1) (lower d2);
      fold (lower m1) (lower m2); rewrite lower_digits by assumption;
      rewrite <- !app_assoc; unfold sub_digits in *;
      rewrite replace_runs_run by (auto using starts_lower_app);
      f_equal; auto.
Qed.

Lemma normalize_around l b r :
  forallb is_space l = true -> forallb is_space r = true ->
  forall p, (forall t, starts_ok is_digit t = false ->
               sub_digits (lower b ++ t) = p ++ sub_digits t) ->
  normalize (l ++ b ++ r) = strip (collapse false p).
Proof.
  intros Hl Hr p Hp. rewrite normalize_eq.
  unfold lower. rewrite !map_app. fold (lower l) (lower b) (lower r).
  rewrite (lower_spaces l Hl), (lower_spaces r Hr).
  rewrite sub_digits_spaces by assumption.
  rewrite Hp by now apply spaces_start_no_digit.
  rewrite <- (app_nil_r r) at 1. rewrite sub_digits_spaces by assumption.
  rewrite app_nil_r. now apply strip_collapse_around.
Qed.

(** C1.  Two records of one service whose messages differ only in their
    maximal runs of decimal digits (at the same places) and in the white
    space around the message have the same incident key. *)
Theorem derive_incident_key_digits_whitespace (e1 e2 : LogEntry) :
  service e1 = service e2 ->
  same_but_digits_and_margins (message e1) (message e2) ->
  derive_incident_key e1 = derive_incident_key e2.
Proof.
  intros Hs (l1 & b1 & r1 & l2 & b2 & r2 & E1 & E2 & L1 & R1 & L2 & R2 & V).
  unfold derive_incident_key. rewrite Hs, E1, E2. do 2 f_equal.
  destruct (digit_variant_sub b1 b2 V) as (p & P1 & P2).
  rewrite (normalize_around l1 b1 r1 L1 R1 p P1).
  now rewrite (normalize_around l2 b2 r2 L2 R2 p P2).
Qed.

Lemma derive_incident_key_digits_whitespace_witness :
  derive_incident_key up30 = derive_incident_key up4500.
Proof.
  apply derive_incident_key_digits_whitespace; [reflexivity |].
  exists (lit " "), (lit "Up 30s"), [], [], (lit "Up 4500s"), (lit "  ").
  repeat (split; [reflexivity |]).
  do 3 (apply dv_char; [reflexivity |]).
  apply (dv_run (lit "30") (lit "4500") (lit "s") (lit "s"));
    try reflexivity; try discriminate.
  apply dv_char; [reflexivity | apply dv_nil].
Defined.

(** ** First matches *)

Section First.

Variable f : flags.

Lemma hd_seq r1 r2 s s1 s2 :
  hd_error (run f r1 s) = Some s1 -> hd_error (run f r2 s1) = Some s2 ->
  hd_error (run f (r1 ;;; r2) s) = Some s2.
Proof. intros H1 H2. simpl. eapply hd_error_flat_map; eauto. Qed.

Lemma hd_atom a c q l cs :
  atom_ok f a c = true ->
  hd_error (run f (Atom a) (mkState q (c :: l) cs)) = Some (mkState (S q) l cs).
Proof. intros H. simpl. now rewrite H. Qed.

Lemma hd_star a w q l cs :
  forallb (atom_ok f a) w = true -> starts_ok (atom_ok f a) l = false ->
  hd_error (run f (Star a) (mkState q (w ++ l) cs)) =
  Some (mkState (q + length w) l cs).
Proof.
  intros Hw Hl. simpl. rewrite star_greedy_hd.
  rewrite (run_len_app _ w l Hw Hl), skipn_app, skipn_all, Nat.sub_diag.
  reflexivity.
Qed.

Lemma hd_plus ok w q l cs :
  w <> [] -> forallb ok w = true -> starts_ok ok l = false ->
  hd_error (run f (Plus (Cls ok)) (mkState q (w ++ l) cs)) =
  Some (mkState (q + length w) l cs).
Proof.
  destruct w as [|c w]; [congruence |]. intros _ Hw Hl.
  simpl in Hw. apply andb_true_iff in Hw as [Hc Hw].
  unfold Plus. eapply hd_seq.
  - apply hd_atom. exact Hc.
  - replace (q + length (c :: w)) with (S q + length w) by (simpl; lia).
    now apply hd_star.
Qed.

Lemma hd_group n r w q l cs :
  hd_error (run f r (mkState q (w ++ l) cs)) = Some (mkState (q + length w) l cs) ->
  hd_error (run f (Group n r) (mkState q (w ++ l) cs)) =
  Some (mkState (q + length w) l ((n, w) :: cs)).
Proof.
  intros H. simpl. destruct (run f r (mkState q (w ++ l) cs)) as [|x k]; [discriminate |].
  simpl in *. injection H as ->. unfold set_cap. simpl.
  replace (q + length w - q) with (length w) by lia.
  now rewrite firstn_app, firstn_all, Nat.sub_diag, app_nil_r.
Qed.

(** What a match of [c+] says about the text. *)
Lemma Matches_plus ok s s' :
  Matches f (Plus (Cls ok)) s s' ->
  exists w, w <> [] /\ forallb ok w = true /\ rest s = w ++ rest s' /\
            pos s' = pos s + length w /\ caps s' = caps s.
Proof.
  simpl. intros (m & (c & E & Hc & P & C) & (w & E' & Hw & P' & C')).
  change (forallb ok w = true) in Hw.
  exists (c :: w). simpl. rewrite Hc, Hw, E, E'.
  repeat split; try congruence. lia.
Qed.

End First.

(** ** Log lines *)

Lemma word_not_space c : is_word c = true -> is_space c = false.
Proof. each_char c; vm_compute; congruence. Qed.

Lemma starts_first ok (w l : str) :
  w <> [] -> forallb ok w = true -> starts_ok (fun c => negb (ok c)) (w ++ l) = false.
Proof.
  destruct w as [|c w]; [congruence |]. simpl. intros _ H.
  apply andb_true_iff in H as [-> _]. reflexivity.
Qed.

Lemma starts_word_not_space (w l : str) :
  w <> [] -> forallb is_word w = true -> starts_ok is_space (w ++ l) = false.
Proof.
  destruct w as [|c w]; [congruence |]. simpl. intros _ H.
  apply andb_true_iff in H as [H _]. now apply word_not_space.
Qed.

(** The first match of the pattern on a text of the grammar. *)
Lemma log_pattern_first s ts sv lv msg :
  log_grammar s ts sv lv msg ->
  exists q, re_match no_flags log_pattern s =
            Some (mkState q [] [(4, msg); (3, lv); (2, sv); (1, ts)]).
Proof.
  intros (w1 & w2 & w3 & E & T0 & T & W10 & W1 & S0 & Sv & W20 & W2 &
          L0 & Lv & W30 & W3 & M & M0).
  rewrite <- (app_nil_r msg) in E. subst s.
  assert (M1 : starts_ok is_space (msg ++ []) = false) by now rewrite app_nil_r.
  eexists. unfold re_match, match_at, log_pattern.
  eapply hd_seq; [reflexivity |].
  eapply hd_seq; [apply hd_group, hd_plus; auto; now apply starts_first |].
  eapply hd_seq; [apply hd_plus; auto |].
  eapply hd_seq; [apply hd_atom; reflexivity |].
  eapply hd_seq; [apply hd_group, hd_plus; auto |].
  eapply hd_seq; [apply hd_atom; reflexivity |].
  eapply hd_seq; [apply hd_plus; auto using starts_word_not_space |].
  eapply hd_seq; [apply hd_group, hd_plus; auto |].
  eapply hd_seq; [apply hd_atom; reflexivity |].
  eapply hd_seq; [apply hd_plus; auto |].
  eapply hd_seq; [apply hd_group, hd_star; [exact M | reflexivity] |].
  reflexivity.
Qed.

Lemma lit_eq c x : atom_ok no_flags (Lit x) c = true -> c = x.
Proof. simpl. apply Ascii.eqb_eq. Qed.

(** What a match of the pattern says about the text. *)
Lemma log_pattern_sound s m :
  Matches no_flags log_pattern (mkState 0 s []) m ->
  exists ts w1 sv w2 lv w3 msg tail,
    s = ts ++ w1 ++ lit "[" ++ sv ++ lit "]" ++ w2 ++ lv ++ lit ":" ++ w3 ++
        msg ++ tail /\
    (ts <> [] /\ forallb not_space ts = true) /\
    (w1 <> [] /\ forallb is_space w1 = true) /\
    (sv <> [] /\ forallb not_rbracket sv = true) /\
    (w2 <> [] /\ forallb is_space w2 = true) /\
    (lv <> [] /\ forallb is_word lv = true) /\
    (w3 <> [] /\ forallb is_space w3 = true) /\
    forallb not_newline msg = true /\ (tail = [] \/ tail = [newline]).
Proof.
  unfold log_pattern. cbn [Matches].
  intros (m0 & [_ ->] & m1 & (m1' & H1 & ->) & m2 & H2 & m3 & (c3 & E3 & C3 & _)
          & m4 & (m4' & H4 & ->) & m5 & (c5 & E5 & C5 & _) & m6 & H6
          & m7 & (m7' & H7 & ->) & m8 & (c8 & E8 & C8 & _) & m9 & H9
          & m10 & (m10' & (msg & E10 & M & _) & ->) & (T & ->)).
  apply Matches_plus in H1 as (ts & T0 & T1 & E1 & _).
  apply Matches_plus in H2 as (w1 & W10 & W11 & E2 & _).
  apply Matches_plus in H4 as (sv & S0 & S1 & E4 & _).
  apply Matches_plus in H6 as (w2 & W20 & W21 & E6 & _).
  apply Matches_plus in H7 as (lv & L0 & L1 & E7 & _).
  apply Matches_plus in H9 as (w3 & W30 & W31 & E9 & _).
  apply lit_eq in C3, C5, C8. subst c3 c5 c8.
  cbn [rest set_cap] in *.
  exists ts, w1, sv, w2, lv, w3, msg, (rest m10').
  split; [| auto 20].
  rewrite E1, E2, E3, E4, E5, E6, E7, E8, E9, E10. reflexivity.
Qed.

(** A stripped text does not end in white space. *)
Lemma strip_last l a c : strip l = a ++ [c] -> is_space c = false.
Proof.
  unfold strip, rstrip. intros H.
  apply (f_equal (@rev ascii)) in H.
  rewrite rev_involutive, rev_app_distr in H. simpl in H.
  pose proof (lstrip_starts (rev (lstrip l))) as S. now rewrite H in S.
Qed.

Lemma log_grammar_of_match line m :
  re_match no_flags log_pattern (strip line) = Some m ->
  exists ts sv lv msg, log_grammar (strip line) ts sv lv msg.
Proof.
  intros H. apply match_at_sound, log_pattern_sound in H
    as (ts & w1 & sv & w2 & lv & w3 & msg & tail & E & T & W1 & Sv & W2 & Lv
        & W3 & M & Tl).
  assert (tail = []) as ->.
  { destruct Tl as [-> | ->]; [reflexivity | exfalso].
    rewrite !app_assoc in E. apply strip_last in E. discriminate. }
  rewrite app_nil_r in E.
  destruct (run_len_split is_space msg) as (Em & Sp & St).
  set (sp := firstn (run_len is_space msg) msg) in *.
  set (msg' := skipn (run_len is_space msg) msg) in *.
  rewrite Em, forallb_app in M. apply andb_true_iff in M as [_ M].
  exists ts, sv, lv, msg', w1, w2, (w3 ++ sp).
  split; [rewrite E, Em, <- !app_assoc; reflexivity |].
  destruct T, W1, Sv, W2, Lv, W3 as [W30 W3].
  repeat split; auto.
  - intros N. apply app_eq_nil in N as [N _]. contradiction.
  - rewrite forallb_app, W3, Sp. reflexivity.
Qed.

(** C6.  A line whose stripped text follows the grammar gives the record of
    its four fields, unchanged; a line that is empty once stripped, or
    whose stripped text does not follow the grammar, gives no record. *)
Theorem parse_log_line_grammar (line : str) :
  (forall ts sv lv msg,
     log_grammar (strip line) ts sv lv msg ->
     parse_log_line line = Some (mkLogEntry ts sv lv msg)) /\
  (strip line = [] \/
   ~ (exists ts sv lv msg, log_grammar (strip line) ts sv lv msg) ->
   parse_log_line line = None).
Proof.
  unfold parse_log_line. split.
  - intros ts sv lv msg G.
    destruct (log_pattern_first _ _ _ _ _ G) as (q & ->).
    destruct G as (w1 & w2 & w3 & E & T0 & _).
    destruct (strip line) as [|c t]; [| reflexivity].
    destruct ts; [congruence | discriminate].
  - intros H. destruct (strip line) as [|c t] eqn:E; [reflexivity |].
    destruct H as [H | H]; [discriminate |].
    destruct (re_match no_flags log_pattern (c :: t)) as [m|] eqn:R; [| reflexivity].
    exfalso. apply H. rewrite <- E in R |- *.
    eapply log_grammar_of_match; eauto.
Qed.

Lemma parse_log_line_grammar_witness :
  parse_log_line (lit "  t0 [db] WARN:  slow response ") =
    Some (mkLogEntry (lit "t0") (lit "db") (lit "WARN") (lit "slow response")) /\
  parse_log_line (lit "   ") = None.
Proof.
  split.
  - apply (proj1 (parse_log_line_grammar (lit "  t0 [db] WARN:  slow response "))).
    exists (lit " "), (lit " "), (lit "  ").
    repeat split; try reflexivity; discriminate.
  - apply (proj2 (parse_log_line_grammar (lit "   "))). left. reflexivity.
Defined.

(** ** Runbook lookup *)

Lemma starts_with_spec p : forall s,
  starts_with p s = true <-> exists post, s = p ++ post.
Proof.
  induction p as [|a p IH]; intros s; simpl.
  - split; [intros _; now exists s | reflexivity].
  - destruct s as [|b s].
    + split; [discriminate | intros (post & H); discriminate].
    + rewrite andb_true_iff, Ascii.eqb_eq, IH. split.
      * intros (-> & post & ->). now exists post.
      * intros (post & H). injection H as -> ->. split; [reflexivity | now exists post].
Qed.

Lemma contains_spec sub : forall s, contains sub s = true <-> occurs_in sub s.
Proof.
  induction s as [|c t IH]; simpl; rewrite orb_true_iff, starts_with_spec.
  - split.
    + intros [(post & H) | H]; [| discriminate]. now exists [], post.
    + intros (pre & post & H). left. destruct pre; [now exists post | discriminate].
  - rewrite IH. split.
    + intros [(post & H) | (pre & post & ->)].
      * now exists [], post.
      * now exists (c :: pre), post.
    + intros ([|d pre] & post & H).
      * left. now exists post.
      * right. injection H as -> ->. now exists pre, post.
Qed.

Lemma scan_runbooks_first pattern before keyword runbook after :
  occurs_in keyword pattern ->
  (forall k r, In (k, r) before -> ~ occurs_in k pattern) ->
  scan_runbooks (before ++ (keyword, runbook) :: after) pattern = runbook.
Proof.
  intros Hk. induction before as [|[k r] before IH]; simpl; intros Hb.
  - apply contains_spec in Hk. now rewrite Hk.
  - destruct (contains k pattern) eqn:E.
    + apply contains_spec in E. exfalso. apply (Hb k r); auto.
    + apply IH. intros k' r' H. apply (Hb k' r'). now right.
Qed.

Lemma scan_runbooks_none pattern kb :
  (forall k r, In (k, r) kb -> ~ occurs_in k pattern) ->
  scan_runbooks kb pattern = fallback_runbook.
Proof.
  induction kb as [|[k r] kb IH]; simpl; intros H; [reflexivity |].
  destruct (contains k pattern) eqn:E.
  - apply contains_spec in E. exfalso. apply (H k r); auto.
  - apply IH. intros k' r' H'. apply (H k' r'). now right.
Qed.

(** C5.  The lookup returns the runbook of the first keyword of the
    knowledge base, in the order it is written, that occurs in the pattern,
    and the fixed fallback text when no keyword occurs in it. *)
Theorem retrieve_runbook_first_keyword (pattern : str) :
  (forall before keyword runbook after,
     KNOWLEDGE_BASE = before ++ (keyword, runbook) :: after ->
     occurs_in keyword pattern ->
     (forall k r, In (k, r) before -> ~ occurs_in k pattern) ->
     retrieve_runbook pattern = runbook) /\
  ((forall k r, In (k, r) KNOWLEDGE_BASE -> ~ occurs_in k pattern) ->
   retrieve_runbook pattern =
   lit "No specific runbook found. Follow general triage SOP.").
Proof.
  unfold retrieve_runbook. split.
  - intros before keyword runbook after ->. apply scan_runbooks_first.
  - apply scan_runbooks_none.
Qed.

Lemma no_occurrence k s : contains k s = false -> ~ occurs_in k s.
Proof. intros E H. apply contains_spec in H. congruence. Qed.

Lemma retrieve_runbook_first_keyword_witness :
  retrieve_runbook (lit "slow response after payment gateway timeout") =
    lit "RUNBOOK-PAY-99: Verify Stripe API status page. If Stripe is up, check internal NAT gateway latency." /\
  retrieve_runbook (lit "disk full") =
    lit "No specific runbook found. Follow general triage SOP.".
Proof.
  split.
  - apply (proj1 (retrieve_runbook_first_keyword
                    (lit "slow response after payment gateway timeout"))
             [(lit "database connection timeout",
               lit "RUNBOOK-DB-001: Check RDS CPU utilization. If > 80%, scale up read replicas. If normal, check VPC security groups.")]
             (lit "payment gateway timeout") _
             [(lit "token signature validation",
               lit "RUNBOOK-AUTH-55: Rotate JWT public keys. Check if client clock skew > 5 minutes.");
              (lit "slow response",
               lit "RUNBOOK-PERF-12: Check Redis cache hit rate. If < 50%, flush cache or increase memory.")]).
    + reflexivity.
    + exists (lit "slow response after "), []. reflexivity.
    + intros k r [[= <- <-] | []]. apply no_occurrence. reflexivity.
  - apply (proj2 (retrieve_runbook_first_keyword (lit "disk full"))).
    intros k r [[= <- <-] | [[= <- <-] | [[= <- <-] | [[= <- <-] | []]]]];
      apply no_occurrence; reflexivity.
Defined.

(** ** Grouping *)

Lemma str_eqb_eq a : forall b, str_eqb a b = true <-> a = b.
Proof.
  induction a as [|x a IH]; intros [|y b]; simpl; try (split; congruence).
  rewrite andb_true_iff, Ascii.eqb_eq, IH. split.
  - now intros [-> ->].
  - intros [= -> ->]. auto.
Qed.

Lemma str_eqb_refl a : str_eqb a a = true.
Proof. now apply str_eqb_eq. Qed.

Lemma str_eqb_sym a : forall b, str_eqb a b = str_eqb b a.
Proof.
  induction a as [|x a IH]; intros [|y b]; simpl; try reflexivity.
  now rewrite Ascii.eqb_sym, IH.
Qed.

Lemma actionable_spec e :
  actionable e = true <-> level e = lit "ERROR" \/ level e = lit "WARN".
Proof. unfold actionable. now rewrite orb_true_iff, !str_eqb_eq. Qed.

Lemma first_seen_snoc k : forall ks seen,
  first_seen seen (ks ++ [k]) =
  first_seen seen ks ++
  (if existsb (fun x => str_eqb x k) (seen ++ first_seen seen ks) then [] else [k]).
Proof.
  induction ks as [|x ks IH]; intros seen; simpl.
  - rewrite app_nil_r. now destruct (existsb _ seen).
  - destruct (existsb (fun y => str_eqb y x) seen); [apply IH |].
    simpl. rewrite IH, <- app_assoc. reflexivity.
Qed.

Lemma dict_append_keys k e : forall d,
  map fst (dict_append k e d) =
  map fst d ++ (if existsb (fun x => str_eqb x k) (map fst d) then [] else [k]).
Proof.
  induction d as [|[k' v] d IH]; simpl; [reflexivity |].
  destruct (str_eqb k' k); simpl; [now rewrite app_nil_r | now rewrite IH].
Qed.

Lemma dict_get_append k e key : forall d,
  dict_get key (dict_append k e d) =
  dict_get key d ++ (if str_eqb k key then [e] else []).
Proof.
  induction d as [|[k' v] d IH]; simpl.
  - now destruct (str_eqb k key).
  - destruct (str_eqb k' k) eqn:E; simpl.
    + apply str_eqb_eq in E. subst k'.
      destruct (str_eqb k key); [reflexivity | now rewrite app_nil_r].
    + destruct (str_eqb k' key) eqn:E'; [| apply IH].
      apply str_eqb_eq in E'. subst k'. rewrite str_eqb_sym, E. now rewrite app_nil_r.
Qed.

Lemma dict_append_nonempty k e : forall d,
  (forall k' v, In (k', v) d -> v <> []) ->
  forall k' v, In (k', v) (dict_append k e d) -> v <> [].
Proof.
  induction d as [|[k0 v0] d IH]; simpl; intros H k' v.
  - intros [[= <- <-] | []]. discriminate.
  - destruct (str_eqb k0 k); simpl.
    + intros [[= <- <-] | Hin]; [| eapply H; eauto].
      intros N. apply app_eq_nil in N as [_ N]. discriminate.
    + intros [[= <- <-] | Hin]; [eapply H; eauto |].
      eapply IH; eauto.
Qed.

Lemma dict_get_in key : forall d v,
  NoDup (map fst d) -> In (key, v) d -> dict_get key d = v.
Proof.
  induction d as [|[k0 v0] d IH]; simpl; intros v N; [intros [] |].
  inversion N as [|? ? Hn N']; subst.
  intros [[= -> ->] | Hin].
  - now rewrite str_eqb_refl.
  - destruct (str_eqb k0 key) eqn:E; [| now apply IH].
    apply str_eqb_eq in E. subst k0. exfalso. apply Hn.
    now apply (in_map fst) in Hin.
Qed.

Lemma dict_get_found key : forall d,
  dict_get key d <> [] -> In (key, dict_get key d) d.
Proof.
  induction d as [|[k0 v0] d IH]; simpl; [congruence |].
  destruct (str_eqb k0 key) eqn:E.
  - apply str_eqb_eq in E. subst k0. now left.
  - intros H. right. now apply IH.
Qed.

Lemma existsb_str_in k l : existsb (fun x => str_eqb x k) l = true <-> In k l.
Proof.
  rewrite existsb_exists. split.
  - intros (x & Hx & E). apply str_eqb_eq in E. now subst.
  - intros H. exists k. split; [assumption | apply str_eqb_refl].
Qed.

Lemma group_incidents_snoc es e :
  group_incidents (es ++ [e]) = group_step (group_incidents es) e.
Proof. unfold group_incidents. now rewrite fold_left_app. Qed.

(** What the loop of [group_incidents] keeps true. *)
Lemma group_incidents_inv es :
  map fst (group_incidents es) =
    first_seen [] (map derive_incident_key (filter actionable es)) /\
  NoDup (map fst (group_incidents es)) /\
  (forall key, dict_get key (group_incidents es) = filed_under key es) /\
  (forall k v, In (k, v) (group_incidents es) -> v <> []).
Proof.
  induction es as [|e es (K & N & G & E)] using rev_ind.
  - repeat split; [constructor | intros k v []].
  - rewrite group_incidents_snoc. unfold group_step, filed_under in *.
    rewrite filter_app. simpl filter.
    destruct (actionable e) eqn:A.
    + simpl. rewrite map_app. simpl map. rewrite first_seen_snoc. simpl app at 2.
      rewrite dict_append_keys, <- K.
      repeat split.
      * destruct (existsb _ (map fst (group_incidents es))) eqn:X;
          [now rewrite app_nil_r |].
        apply NoDup_app; auto using NoDup_nil. 1: constructor; [intros [] | constructor].
        intros x Hx [<- | []].
        apply existsb_str_in in Hx. congruence.
      * intros key. rewrite dict_get_append, G, filter_app. simpl.
        now rewrite A.
      * now apply dict_append_nonempty.
    + rewrite !app_nil_r. repeat split; auto.
      intros key. rewrite G, filter_app. simpl. rewrite A. simpl.
      now rewrite app_nil_r.
Qed.

(** C7.  The groups hold exactly the ERROR and WARN records, each under
    its derived key and in the order of the input; the keys come in the
    order in which each was first seen, and none comes twice. *)
Theorem group_incidents_groups (entries : list LogEntry) :
  map fst (group_incidents entries) =
    first_seen [] (map derive_incident_key (filter actionable entries)) /\
  NoDup (map fst (group_incidents entries)) /\
  (forall key records,
     In (key, records) (group_incidents entries) ->
     records <> [] /\
     records = filter (fun e => actionable e &&
                                str_eqb (derive_incident_key e) key) entries) /\
  (forall e,
     (exists key records,
        In (key, records) (group_incidents entries) /\ In e records) <->
     In e entries /\ (level e = lit "ERROR" \/ level e = lit "WARN")).
Proof.
  destruct (group_incidents_inv entries) as (K & N & G & E).
  assert (F : forall key records,
             In (key, records) (group_incidents entries) ->
             records = filed_under key entries).
  { intros key records H. rewrite <- G. symmetry. now apply dict_get_in. }
  split; [exact K |]. split; [exact N |]. split.
  - intros key records H. split; [now apply (E key) | now apply F].
  - intros e. split.
    + intros (key & records & H & He). apply F in H. subst records.
      apply filter_In in He as [Hin He]. apply andb_true_iff in He as [He _].
      split; [assumption | now apply actionable_spec].
    + intros [Hin Hl]. apply actionable_spec in Hl.
      set (key := derive_incident_key e).
      assert (H : In e (dict_get key (group_incidents entries))).
      { rewrite G. apply filter_In. split; [assumption |].
        unfold key. now rewrite Hl, str_eqb_refl. }
      exists key, (dict_get key (group_incidents entries)).
      split; [| assumption].
      apply dict_get_found. intros Z. rewrite Z in H. destruct H.
Qed.

Lemma group_incidents_groups_witness :
  [db_err; db_err'] =
  filter (fun e => actionable e &&
                   str_eqb (derive_incident_key e) (lit "db::timeout after <NUM>s"))
    [db_err; db_info; web_warn; db_err'].
Proof.
  apply (proj1 (proj2 (proj2 (group_incidents_groups
                                [db_err; db_info; web_warn; db_err'])))).
  vm_compute. left. reflexivity.
Defined.

(** ** The prompt *)

Lemma split_once_spec sep : forall key,
  occurs_in sep key ->
  exists a b, split_once sep key = Some (a, b) /\ key = a ++ sep ++ b.
Proof.
  induction key as [|c t IH]; intros (pre & post & E).
  - symmetry in E. apply app_eq_nil in E as [-> E].
    apply app_eq_nil in E as [-> ->]. exists [], []. split; reflexivity.
  - cbn [split_once]. destruct (starts_with sep (c :: t)) eqn:S.
    + apply starts_with_spec in S as (rest & S). exists [], (skipn (length sep) (c :: t)).
      split; [reflexivity |]. rewrite S at 2. rewrite skipn_app, skipn_all, Nat.sub_diag.
      exact S.
    + destruct pre as [|d pre].
      * exfalso. assert (starts_with sep (c :: t) = true); [| congruence].
        apply starts_with_spec. now exists post.
      * injection E as <- ->.
        destruct IH as (a & b & -> & E); [now exists pre, post |].
        exists (c :: a), b. split; [reflexivity |]. simpl. now f_equal.
Qed.




(** Every key that [derive_incident_key] makes holds the separator. *)
Lemma derive_incident_key_separator e : occurs_in (lit "::") (derive_incident_key e).
Proof. now exists (service e), (normalize (message e)). Qed.


(** ** The two time-outs of the orders service *)

(** C9.  Both lines parse, their records have one key and make one group,
    no keyword of the knowledge base occurs in the key's pattern, and the
    lookup of that pattern gives the fallback text. *)
Theorem orders_timeouts_one_incident :
  parse_log_line orders_line_30 = Some orders_30 /\
  parse_log_line orders_line_45 = Some orders_45 /\
  derive_incident_key orders_30 = lit "orders::" ++ orders_pattern /\
  derive_incident_key orders_45 = lit "orders::" ++ orders_pattern /\
  group_incidents [orders_30; orders_45] =
    [(lit "orders::" ++ orders_pattern, [orders_30; orders_45])] /\
  split_once (lit "::") (lit "orders::" ++ orders_pattern) =
    Some (lit "orders", orders_pattern) /\
  (forall keyword runbook,
     In (keyword, runbook) KNOWLEDGE_BASE -> ~ occurs_in keyword orders_pattern) /\
  retrieve_runbook orders_pattern =
    lit "No specific runbook found. Follow general triage SOP.".
Proof.
  repeat split; try reflexivity.
  intros k r [[= <- <-] | [[= <- <-] | [[= <- <-] | [[= <- <-] | []]]]];
    apply no_occurrence; reflexivity.
Qed.

(** ** The service name in a key *)

Lemma derive_incident_key_service e1 e2 :
  message e1 = message e2 -> service e1 <> service e2 ->
  derive_incident_key e1 <> derive_incident_key e2.
Proof.
  unfold derive_incident_key. intros -> N E. apply N.
  rewrite !app_assoc in E. apply app_inv_tail in E. now apply app_inv_tail in E.
Qed.

(** C10.  The service name goes into the key as it is written: two ERROR
    records with one message, whose service names differ in the case of a
    letter only, have different keys and end in two groups. *)
Theorem service_case_separates_incidents :
  exists e1 e2,
    message e1 = message e2 /\
    lower (service e1) = lower (service e2) /\
    service e1 <> service e2 /\
    actionable e1 = true /\ actionable e2 = true /\
    derive_incident_key e1 <> derive_incident_key e2 /\
    group_incidents [e1; e2] =
      [(derive_incident_key e1, [e1]); (derive_incident_key e2, [e2])].
Proof.
  exists orders_30, Orders_30.
  split; [reflexivity |]. split; [reflexivity |]. split; [discriminate |].
  split; [reflexivity |]. split; [reflexivity |].
  split; [| reflexivity].
  apply derive_incident_key_service; [reflexivity | discriminate].
Qed.

(** ** The report extractor *)



(** Under IGNORECASE a literal text matches the texts that are equal to it
    once both are put in lower case. *)
Lemma ignorecase_lits l : forall w,
  Forall2 (fun x c => atom_ok flags_I (Lit x) c = true) l w <-> lower w = lower l.
Proof.
  induction l as [|x l IH]; intros w.
  - split; [intros F; now inversion F | ].
    destruct w; [constructor | discriminate].
  - split.
    + intros F. inversion F as [|? c ? w' Hc F']; subst. simpl in *.
      apply Ascii.eqb_eq in Hc. apply IH in F'. congruence.
    + destruct w as [|c w]; [discriminate |]. simpl. intros [= Hc E].
      constructor; [simpl; now apply Ascii.eqb_eq | now apply IH].
Qed.

Lemma ignorecase_lits_S l w :
  Forall2 (fun x c => atom_ok flags_IS (Lit x) c = true) l w <-> lower w = lower l.
Proof. apply ignorecase_lits. Qed.

(** A pattern that ends in its group 1, or in group 1 and a lookahead,
    leaves group 1 set. *)
Lemma group1_last f a b x s m :
  Matches f (a ;;; b ;;; Group 1 x) s m -> exists v, group (caps m) 1 = Some v.
Proof.
  cbn [Matches]. intros (m1 & _ & m2 & _ & m3 & _ & ->).
  eexists. reflexivity.
Qed.

Lemma group1_ahead f a b x y s m :
  Matches f (a ;;; b ;;; Group 1 x ;;; Ahead y) s m ->
  exists v, group (caps m) 1 = Some v.
Proof.
  cbn [Matches]. intros (m1 & _ & m2 & _ & m3 & (m3' & _ & ->) & _ & ->).
  eexists. reflexivity.
Qed.

Lemma search_group1_ahead f a b x y text m :
  re_search f (a ;;; b ;;; Group 1 x ;;; Ahead y) text = Some m ->
  exists v, group1_strip m = Ok (strip v).
Proof.
  intros H. apply search_from_sound in H as (pre & suf & _ & H).
  apply group1_ahead in H as (v & H). exists v. unfold group1_strip. now rewrite H.
Qed.

Lemma search_group1_last f a b x text m :
  re_search f (a ;;; b ;;; Group 1 x) text = Some m ->
  exists v, group1_strip m = Ok (strip v).
Proof.
  intros H. apply search_from_sound in H as (pre & suf & _ & H).
  apply group1_last in H as (v & H). exists v. unfold group1_strip. now rewrite H.
Qed.

(** The extractor returns a report for every text, with the severity of
    [severity_of]. *)
Lemma parse_llm_output_to_json_ok text :
  exists r, parse_llm_output_to_json text = Ok r /\ severity r = severity_of text.
Proof.
  unfold parse_llm_output_to_json, severity_of.
  destruct (re_search flags_IS summary_pattern text) as [m1|] eqn:E1;
    [destruct (search_group1_ahead _ _ _ _ _ _ _ E1) as (v1 & ->) |];
  (destruct (re_search flags_I severity_pattern text) as [m2|] eqn:E2;
    [destruct (search_group1_ahead _ _ _ _ _ _ _ E2) as (v2 & G2);
     rewrite G2; unfold group1_strip in G2;
     destruct (group (caps m2) 1) as [v2'|]; [injection G2 as G2 | discriminate] |]);
  (destruct (re_search flags_IS root_cause_pattern text) as [m3|] eqn:E3;
    [destruct (search_group1_ahead _ _ _ _ _ _ _ E3) as (v3 & ->) |]);
  (destruct (re_search flags_IS actions_pattern text) as [m4|] eqn:E4;
    [destruct (search_group1_last _ _ _ _ _ _ E4) as (v4 & ->) |]);
  cbn [bind severity summary root_cause action_items default_report];
  eexists; (split; [reflexivity | auto]).
Qed.

(** C2.  The extractor returns a report for every text, and the default
    report for the empty text. *)
Theorem parse_llm_output_to_json_total :
  (forall text, exists r, parse_llm_output_to_json text = Ok r) /\
  parse_llm_output_to_json [] =
    Ok (mkReport (lit "N/A") (lit "P3") (lit "N/A") []).
Proof.
  split; [| reflexivity].
  intros text. destruct (parse_llm_output_to_json_ok text) as (r & H & _).
  now exists r.
Qed.

(** ** Severity *)














(** ** More of the specification *)

(** The extractor on fields that share one line. *)
Theorem parse_llm_output_to_json_same_line :
  parse_llm_output_to_json
    (lit "Summary: DB down Severity: P1 Root Cause: overload Action Items: restart, scale") =
  Ok (mkReport (lit "DB down") (lit "P1") (lit "overload")
        [lit "restart"; lit "scale"]).
Proof. reflexivity. Qed.

(** X7.  The prompt builder raises on no key that [derive_incident_key] made. *)
Theorem build_summary_prompt_on_derived_key (e : LogEntry) (entries : list LogEntry) :
  exists prompt, build_summary_prompt (derive_incident_key e) entries = Ok prompt.
Proof.
  destruct (split_once_spec (lit "::") (derive_incident_key e)
              (derive_incident_key_separator e)) as (a & b & S & _).
  unfold build_summary_prompt. rewrite S. eexists. reflexivity.
Qed.

(** ** The model on further inputs *)

Example parse_log_line_message_newline :
  parse_log_line (lit "a [b] c: d
e") = None.
Proof. reflexivity. Qed.

Example parse_log_line_empty_service :
  parse_log_line (lit "a [] c: d") = None.
Proof. reflexivity. Qed.

Example parse_log_line_bracket_in_timestamp :
  parse_log_line (lit "a[b] [c] E: m") =
  Some (mkLogEntry (lit "a[b]") (lit "c") (lit "E") (lit "m")).
Proof. reflexivity. Qed.

Example parse_log_line_wide_separators :
  parse_log_line (lit "a [b] c:   d e
") = Some (mkLogEntry (lit "a") (lit "b") (lit "c") (lit "d e")).
Proof. reflexivity. Qed.

Example normalize_mixed :
  normalize (lit " A12b 3  4	 x ") = lit "a<NUM>b <NUM> <NUM> x".
Proof. reflexivity. Qed.

Example severity_second_label :
  severity_of (lit "Severity: CRITICAL Severity: P2") = lit "P2".
Proof. reflexivity. Qed.

Example severity_two_digits :
  severity_of (lit "Severity: P12") = lit "P3".
Proof. reflexivity. Qed.

Example severity_before_last_newline :
  severity_of (lit "Severity: P1
") = lit "P1".
Proof. reflexivity. Qed.

Example build_summary_prompt_without_separator :
  build_summary_prompt (lit "orders") [orders_30] = Raise ValueError.
Proof. reflexivity. Qed.

(** * Further properties of the code *)

(** ** Lines and their white space *)

Lemma rstrip_app_spaces l w :
  forallb is_space w = true -> rstrip (l ++ w) = rstrip l.
Proof.
  intros H. unfold rstrip. rewrite rev_app_distr, lstrip_spaces; [reflexivity |].
  rewrite forallb_forall in *. intros x Hx. apply H. now apply in_rev.
Qed.

Lemma strip_around w1 l w2 :
  forallb is_space w1 = true -> forallb is_space w2 = true ->
  strip (w1 ++ l ++ w2) = strip l.
Proof.
  intros H1 H2. unfold strip. rewrite lstrip_spaces by assumption.
  destruct (lstrip_app_spaces l w2 H2) as (w & Hw & ->).
  now apply rstrip_app_spaces.
Qed.

Lemma strip_fixed l c :
  starts_ok is_space (l ++ [c]) = false -> is_space c = false ->
  strip (l ++ [c]) = l ++ [c].
Proof.
  intros H Hc. unfold strip. rewrite lstrip_id by assumption.
  now apply (rstrip_snoc_spaces l c []).
Qed.

Lemma parse_log_line_of_grammar line ts sv lv msg :
  log_grammar (strip line) ts sv lv msg ->
  parse_log_line line = Some (mkLogEntry ts sv lv msg).
Proof.
  intros G. unfold parse_log_line.
  destruct (log_pattern_first _ _ _ _ _ G) as (q & ->).
  destruct G as (w1 & w2 & w3 & E & T0 & _).
  destruct (strip line) as [|c t]; [| reflexivity].
  destruct ts; [congruence | discriminate].
Qed.

Lemma parse_log_line_some line e :
  parse_log_line line = Some e ->
  log_grammar (strip line) (timestamp e) (service e) (level e) (message e).
Proof.
  intros H. assert (H' := H). unfold parse_log_line in H'.
  destruct (strip line) as [|c t] eqn:E; [discriminate |].
  destruct (re_match no_flags log_pattern (c :: t)) as [m|] eqn:R; [| discriminate].
  clear H'. rewrite <- E in R.
  destruct (log_grammar_of_match line m R) as (ts & sv & lv & msg & G).
  rewrite <- E. rewrite (parse_log_line_of_grammar line _ _ _ _ G) in H.
  injection H as <-. exact G.
Qed.

(** X1.  White space around a line, the newline at its end with it, changes
    nothing. *)
Theorem parse_log_line_ignores_margins (w1 line w2 : str) :
  forallb is_space w1 = true -> forallb is_space w2 = true ->
  parse_log_line (w1 ++ line ++ w2) = parse_log_line line.
Proof.
  intros H1 H2. unfold parse_log_line. now rewrite strip_around.
Qed.

Lemma parse_log_line_ignores_margins_witness :
  parse_log_line (lit "	 " ++ orders_line_30 ++ [newline]) =
  parse_log_line orders_line_30.
Proof. apply parse_log_line_ignores_margins; reflexivity. Defined.

(** X2.  The fields of a parsed record: a time stamp without white space, a
    service without a closing bracket, a level of word characters, none of
    them empty, and a message that is not empty, holds no newline and has
    no white space at either end. *)
Theorem parse_log_line_fields (line : str) (e : LogEntry) :
  parse_log_line line = Some e ->
  (timestamp e <> [] /\ forallb not_space (timestamp e) = true) /\
  (service e <> [] /\ forallb not_rbracket (service e) = true) /\
  (level e <> [] /\ forallb is_word (level e) = true) /\
  (message e <> [] /\ forallb not_newline (message e) = true /\
   strip (message e) = message e).
Proof.
  intros H. apply parse_log_line_some in H
    as (w1 & w2 & w3 & E & T0 & T & _ & _ & S0 & Sv & _ & _ & L0 & Lv & W30 & W3 & M & M0).
  repeat split; auto.
  - intros N. rewrite N, app_nil_r in E.
    destruct (exists_last W30) as (a & c & Ew). rewrite Ew in E, W3.
    rewrite forallb_app in W3. apply andb_true_iff in W3 as [_ W3]. simpl in W3.
    rewrite !app_assoc in E. apply strip_last in E.
    rewrite E in W3. discriminate.
  - destruct (message e) as [|x k] eqn:Em; [reflexivity |].
    assert (N : x :: k <> []) by discriminate.
    destruct (exists_last N) as (a & c & Ek). rewrite Ek in *.
    apply strip_fixed; [assumption |].
    rewrite !app_assoc in E. now apply strip_last in E.
Qed.

Lemma parse_log_line_fields_witness :
  (timestamp orders_30 <> [] /\ forallb not_space (timestamp orders_30) = true) /\
  (service orders_30 <> [] /\ forallb not_rbracket (service orders_30) = true) /\
  (level orders_30 <> [] /\ forallb is_word (level orders_30) = true) /\
  (message orders_30 <> [] /\ forallb not_newline (message orders_30) = true /\
   strip (message orders_30) = message orders_30).
Proof. apply (parse_log_line_fields orders_line_30). reflexivity. Defined.

(** ** The normalized message *)

Lemma lstrip_prefix l : exists a, l = a ++ lstrip l /\ forallb is_space a = true.
Proof.
  induction l as [|c t (a & E & H)]; simpl.
  - now exists [].
  - destruct (is_space c) eqn:Hc.
    + exists (c :: a). simpl. rewrite Hc, H. split; [now f_equal | reflexivity].
    + now exists [].
Qed.

Lemma rstrip_suffix l : exists b, l = rstrip l ++ b /\ forallb is_space b = true.
Proof.
  destruct (lstrip_prefix (rev l)) as (a & E & H).
  exists (rev a). split.
  - unfold rstrip. rewrite <- rev_app_distr, <- E. now rewrite rev_involutive.
  - rewrite forallb_forall in *. intros x Hx. apply H. now apply in_rev.
Qed.

(** A stripped text is the text without white space at its two ends. *)
Lemma strip_infix l :
  exists a b, l = a ++ strip l ++ b /\
              forallb is_space a = true /\ forallb is_space b = true.
Proof.
  destruct (lstrip_prefix l) as (a & E & Ha).
  destruct (rstrip_suffix (lstrip l)) as (b & E' & Hb).
  exists a, b. unfold strip. now rewrite <- E', <- E.
Qed.

Lemma strip_forallb p l : forallb p l = true -> forallb p (strip l) = true.
Proof.
  destruct (strip_infix l) as (a & b & E & _). intros H. rewrite E in H.
  rewrite !forallb_app in H. apply andb_true_iff in H as [_ H].
  now apply andb_true_iff in H as [H _].
Qed.

Lemma strip_starts l : starts_ok is_space (strip l) = false.
Proof.
  unfold strip. pose proof (lstrip_starts l) as S.
  destruct (rstrip_suffix (lstrip l)) as (b & E & _).
  destruct (rstrip (lstrip l)) as [|c k]; [reflexivity |].
  rewrite E in S. exact S.
Qed.

Lemma strip_idempotent l : strip (strip l) = strip l.
Proof.
  destruct (strip l) as [|c k] eqn:E; [reflexivity |].
  assert (N : c :: k <> []) by discriminate.
  destruct (exists_last N) as (a & d & Ek).
  pose proof (strip_starts l) as S. rewrite E in S. rewrite Ek in *.
  apply strip_fixed; [assumption |]. now apply strip_last in E.
Qed.

Lemma no_adjacent_tail a l :
  no_adjacent_spaces (a ++ l) = true -> no_adjacent_spaces l = true.
Proof.
  induction a as [|c a IH]; simpl; [auto |].
  intros H. apply andb_true_iff in H as [_ H]. auto.
Qed.

Lemma no_adjacent_head l b :
  no_adjacent_spaces (l ++ b) = true -> no_adjacent_spaces l = true.
Proof.
  induction l as [|c l IH]; simpl; [reflexivity |].
  intros H. apply andb_true_iff in H as [H1 H2]. rewrite IH by assumption.
  rewrite andb_true_r. destruct (is_space c); [| reflexivity].
  destruct l as [|d l]; [reflexivity | exact H1].
Qed.

Lemma no_adjacent_pair l c d :
  no_adjacent_spaces l = true -> is_space c = true -> is_space d = true ->
  ~ occurs_in [c; d] l.
Proof.
  intros H Hc Hd (pre & post & ->).
  apply no_adjacent_tail in H. simpl in H. rewrite Hc, Hd in H. discriminate.
Qed.

Lemma sub_digits_no_digit b l :
  no_digit (replace_runs is_digit (lit "<NUM>") b l) = true.
Proof.
  revert b. induction l as [|c t IH]; intros b; cbn [replace_runs]; [reflexivity |].
  destruct (is_digit c) eqn:E; [destruct b |].
  - apply IH.
  - unfold no_digit in *. rewrite forallb_app, (IH true). reflexivity.
  - unfold no_digit in *. cbn [forallb]. now rewrite E, IH.
Qed.

Lemma collapse_no_digit b l : no_digit l = true -> no_digit (collapse b l) = true.
Proof.
  unfold collapse, no_digit. revert b.
  induction l as [|c t IH]; intros b H; cbn [replace_runs]; [reflexivity |].
  cbn [forallb] in H. apply andb_true_iff in H as [Hc H].
  destruct (is_space c); [destruct b |].
  - now apply IH.
  - rewrite forallb_app, (IH true H). reflexivity.
  - cbn [forallb]. now rewrite Hc, IH.
Qed.

Lemma collapse_spaces_plain b l : spaces_plain (collapse b l) = true.
Proof.
  unfold collapse, spaces_plain. revert b.
  induction l as [|c t IH]; intros b; cbn [replace_runs]; [reflexivity |].
  destruct (is_space c) eqn:E; [destruct b |].
  - apply IH.
  - rewrite forallb_app, (IH true). reflexivity.
  - cbn [forallb]. now rewrite E, IH.
Qed.

Lemma collapse_true_starts l : starts_ok is_space (collapse true l) = false.
Proof.
  unfold collapse. induction l as [|c t IH]; simpl; [reflexivity |].
  destruct (is_space c) eqn:E; [exact IH | simpl; exact E].
Qed.

Lemma collapse_no_adjacent b l : no_adjacent_spaces (collapse b l) = true.
Proof.
  revert b. induction l as [|c t IH]; intros b; [reflexivity |].
  unfold collapse. cbn [replace_runs].
  destruct (is_space c) eqn:E; [destruct b |].
  - apply IH.
  - change (no_adjacent_spaces (" "%char :: collapse true t) = true).
    cbn [no_adjacent_spaces]. rewrite collapse_true_starts, (IH true).
    now rewrite andb_false_r.
  - change (no_adjacent_spaces (c :: collapse false t) = true).
    cbn [no_adjacent_spaces]. now rewrite E, (IH false).
Qed.

(** X5.  The normalized message holds no digit; its white space is single
    space characters, none at either end. *)
Theorem normalize_canonical (m : str) :
  forallb (fun c => negb (is_digit c)) (normalize m) = true /\
  (forall c, In c (normalize m) -> is_space c = true -> c = " "%char) /\
  (forall c d, is_space c = true -> is_space d = true ->
               ~ occurs_in [c; d] (normalize m)) /\
  strip (normalize m) = normalize m.
Proof.
  rewrite normalize_eq.
  set (x := collapse false (sub_digits (lower m))).
  split; [| split; [| split]].
  - apply strip_forallb. apply collapse_no_digit. apply sub_digits_no_digit.
  - intros c Hin Hc.
    pose proof (strip_forallb _ x (collapse_spaces_plain false _)) as H.
    rewrite forallb_forall in H. apply H in Hin. rewrite Hc in Hin.
    now apply Ascii.eqb_eq in Hin.
  - intros c d Hc Hd. apply no_adjacent_pair; auto.
    destruct (strip_infix x) as (a & b & E & _).
    pose proof (collapse_no_adjacent false (sub_digits (lower m))) as H.
    fold x in H. rewrite E in H.
    now apply no_adjacent_tail, no_adjacent_head in H.
  - apply strip_idempotent.
Qed.

(** ** Keys and their two halves *)

Lemma split_once_colons sv : forall p,
  ~ occurs_in (lit "::") (sv ++ lit ":") ->
  split_once (lit "::") (sv ++ lit "::" ++ p) = Some (sv, p).
Proof.
  induction sv as [|c t IH]; intros p H; [reflexivity |].
  change ((c :: t) ++ lit "::" ++ p) with (c :: (t ++ lit "::" ++ p)).
  assert (N : starts_with (lit "::") (c :: (t ++ lit "::" ++ p)) = false).
  { destruct (starts_with (lit "::") (c :: (t ++ lit "::" ++ p))) eqn:S;
      [exfalso | reflexivity].
    apply H. change (lit "::") with [":"%char; ":"%char] in S.
    cbn [starts_with] in S. apply andb_true_iff in S as [Hc S].
    apply Ascii.eqb_eq in Hc. subst c.
    destruct t as [|d t]; [now exists [], [] |].
    cbn [app starts_with] in S. apply andb_true_iff in S as [Hd _].
    apply Ascii.eqb_eq in Hd. subst d.
    exists [], (t ++ lit ":"). reflexivity. }
  cbn [split_once]. rewrite N, IH; [reflexivity |].
  intros (pre & post & E). apply H. exists (c :: pre), post. simpl. now f_equal.
Qed.

(** X6.  Splitting a key at its first separator, as the prompt builder does,
    gives back the service and the normalized message, when the service
    name holds no separator and has no colon at its end. *)
Theorem derive_incident_key_split (e : LogEntry) :
  ~ occurs_in (lit "::") (service e ++ lit ":") ->
  split_once (lit "::") (derive_incident_key e) =
  Some (service e, normalize (message e)).
Proof. intros H. unfold derive_incident_key. now apply split_once_colons. Qed.

Lemma derive_incident_key_split_witness :
  split_once (lit "::") (derive_incident_key orders_30) =
  Some (service orders_30, normalize (message orders_30)).
Proof.
  apply derive_incident_key_split. apply no_occurrence. reflexivity.
Defined.

(** With a colon at the end of the service name the split is another one. *)
Example derive_incident_key_split_colon :
  split_once (lit "::")
    (derive_incident_key (mkLogEntry (lit "t") (lit "db:") (lit "ERROR") (lit "down"))) =
  Some (lit "db", lit ":down").
Proof. reflexivity. Qed.

(** ** Runbooks for messages *)

Lemma scan_runbooks_found pattern : forall kb,
  (exists k r, In (k, r) kb /\ occurs_in k pattern) ->
  exists k, In (k, scan_runbooks kb pattern) kb /\ occurs_in k pattern.
Proof.
  induction kb as [|[k r] kb IH]; simpl.
  - intros (k & r & [] & _).
  - intros (k' & r' & [[= -> ->] | Hin] & Hocc).
    + apply contains_spec in Hocc. rewrite Hocc. exists k'. split; [now left |].
      now apply contains_spec.
    + destruct (contains k pattern) eqn:E.
      * exists k. split; [now left | now apply contains_spec].
      * destruct IH as (k0 & H0 & O0); [now exists k', r' |].
        exists k0. split; [now right | assumption].
Qed.

Lemma keyword_occurs_dec pattern (kb : list (str * str)) :
  (forall k r, In (k, r) kb -> ~ occurs_in k pattern) \/
  (exists k r, In (k, r) kb /\ occurs_in k pattern).
Proof.
  induction kb as [|[k r] kb [IH | (k' & r' & Hin & Hocc)]].
  - left. intros k r [].
  - destruct (contains k pattern) eqn:E.
    + right. exists k, r. split; [now left | now apply contains_spec].
    + left. intros k' r' [[= <- <-] | Hin]; [now apply no_occurrence | eauto].
  - right. exists k', r'. split; [now right | assumption].
Qed.

Lemma knowledge_base_not_fallback k :
  ~ In (k, fallback_runbook) KNOWLEDGE_BASE.
Proof.
  intros [H | [H | [H | [H | []]]]]; discriminate H.
Qed.

(** X11.  The lookup gives the fallback text exactly when no keyword occurs in
    the pattern; any other result is the runbook of a keyword that occurs
    in it. *)
Theorem retrieve_runbook_fallback_iff (pattern : str) :
  (retrieve_runbook pattern =
     lit "No specific runbook found. Follow general triage SOP." <->
   forall k r, In (k, r) KNOWLEDGE_BASE -> ~ occurs_in k pattern) /\
  (retrieve_runbook pattern <>
     lit "No specific runbook found. Follow general triage SOP." ->
   exists k, In (k, retrieve_runbook pattern) KNOWLEDGE_BASE /\
             occurs_in k pattern).
Proof.
  assert (F : (exists k r, In (k, r) KNOWLEDGE_BASE /\ occurs_in k pattern) ->
              exists k, In (k, retrieve_runbook pattern) KNOWLEDGE_BASE /\
                        occurs_in k pattern)
    by apply scan_runbooks_found.
  destruct (keyword_occurs_dec pattern KNOWLEDGE_BASE) as [D | D].
  - split; [split; [auto | apply scan_runbooks_none] |].
    intros N. exfalso. apply N. now apply scan_runbooks_none.
  - split; [split |]; [| apply scan_runbooks_none | intros _; now apply F].
    intros E k r Hin Hocc.
    destruct F as (k0 & H0 & _); [now exists k, r |].
    change (lit "No specific runbook found. Follow general triage SOP.")
      with fallback_runbook in E.
    rewrite E in H0. now apply knowledge_base_not_fallback in H0.
Qed.

Lemma replace_runs_boundary ok repl l : forall pre b,
  starts_ok ok l = false ->
  replace_runs ok repl b (pre ++ l) =
  replace_runs ok repl b pre ++ replace_runs ok repl false l.
Proof.
  intros pre b H. revert b.
  induction pre as [|c pre IH]; intros b; cbn [app replace_runs].
  - now apply replace_runs_start.
  - destruct (ok c); [destruct b |]; rewrite IH; try reflexivity.
    now rewrite app_assoc.
Qed.

Lemma starts_ok_app ok (k l : str) :
  k <> [] -> starts_ok ok (k ++ l) = starts_ok ok k.
Proof. destruct k; [congruence | reflexivity]. Qed.

Lemma collapse_single_spaced k l :
  single_spaced k = true -> collapse false (k ++ l) = k ++ collapse false l.
Proof.
  unfold collapse. induction k as [|c t IH]; [reflexivity |].
  cbn [single_spaced app replace_runs]. intros H.
  apply andb_true_iff in H as [Hc H]. rewrite IH by assumption.
  destruct (is_space c) eqn:E; [| reflexivity].
  simpl in Hc. apply andb_true_iff in Hc as [Hc Hs].
  apply andb_true_iff in Hc as [Hc Ht]. apply Ascii.eqb_eq in Hc. subst c.
  apply negb_true_iff in Hs.
  assert (N : t <> []) by (destruct t; [discriminate | congruence]).
  rewrite (replace_runs_start is_space (lit " ") true (t ++ l))
    by now rewrite starts_ok_app.
  now rewrite IH.
Qed.

Lemma single_spaced_last k :
  single_spaced k = true -> k <> [] ->
  exists a c, k = a ++ [c] /\ is_space c = false.
Proof.
  induction k as [|c t IH]; [congruence |]. cbn [single_spaced]. intros H _.
  apply andb_true_iff in H as [Hc H]. destruct t as [|d t].
  - exists [], c. split; [reflexivity |].
    destruct (is_space c); [| reflexivity].
    simpl in Hc. now rewrite andb_false_r in Hc.
  - destruct IH as (a & x & E & Hx); [assumption | discriminate |].
    exists (c :: a), x. rewrite E. auto.
Qed.

Lemma lstrip_app_nonspace x l :
  starts_ok is_space l = false -> lstrip (x ++ l) = lstrip x ++ l.
Proof.
  intros H. induction x as [|c x IH]; simpl.
  - now apply lstrip_id.
  - destruct (is_space c); [exact IH | reflexivity].
Qed.

Lemma rstrip_app_nonspace a c y :
  is_space c = false -> rstrip ((a ++ [c]) ++ y) = (a ++ [c]) ++ rstrip y.
Proof.
  intros H. unfold rstrip. rewrite rev_app_distr, lstrip_app_nonspace.
  - now rewrite rev_app_distr, rev_involutive.
  - rewrite rev_app_distr. simpl. exact H.
Qed.

(** A clean keyword that occurs in the lower-cased message occurs in the
    normalized message. *)
Lemma normalize_keeps_keyword m k :
  keyword_clean k = true -> occurs_in k (lower m) -> occurs_in k (normalize m).
Proof.
  unfold keyword_clean. intros H (pre & post & E).
  apply andb_true_iff in H as [H Hs]. apply andb_true_iff in H as [H Hsp].
  apply andb_true_iff in H as [Hn Hd]. apply negb_true_iff in Hs.
  assert (N : k <> []) by (destruct k; [discriminate | congruence]).
  destruct (single_spaced_last k Hsp N) as (a & c & Ek & Hc).
  rewrite normalize_eq, E. unfold sub_digits.
  assert (D0 : starts_ok is_digit (k ++ post) = false).
  { rewrite starts_ok_app by assumption. destruct k as [|x k]; [congruence |].
    unfold no_digit in Hd. simpl in Hd. apply andb_true_iff in Hd as [Hd _].
    now apply negb_true_iff in Hd. }
  rewrite replace_runs_boundary by assumption.
  rewrite replace_runs_keep by exact Hd.
  set (x := replace_runs is_digit (lit "<NUM>") false pre).
  set (y := replace_runs is_digit (lit "<NUM>") false post).
  unfold collapse. rewrite replace_runs_boundary
    by (rewrite starts_ok_app; assumption).
  fold (collapse false x) (collapse false (k ++ y)).
  rewrite collapse_single_spaced by assumption.
  unfold strip. rewrite lstrip_app_nonspace
    by (rewrite starts_ok_app; assumption).
  set (z := lstrip (collapse false x)). set (w := collapse false y).
  replace (z ++ k ++ w) with (((z ++ a) ++ [c]) ++ w)
    by (rewrite Ek, <- !app_assoc; reflexivity).
  rewrite rstrip_app_nonspace by assumption.
  exists z, (rstrip w). rewrite Ek, <- !app_assoc. reflexivity.
Qed.

Lemma knowledge_base_clean k r :
  In (k, r) KNOWLEDGE_BASE -> keyword_clean k = true.
Proof.
  intros [H | [H | [H | [H | []]]]]; injection H as <- _; reflexivity.
Qed.

(** X12.  A message that names a keyword of the knowledge base, in any case of
    its letters, gets a runbook of the knowledge base and not the fallback
    text. *)
Theorem retrieve_runbook_for_message (m keyword runbook : str) :
  In (keyword, runbook) KNOWLEDGE_BASE ->
  occurs_in keyword (lower m) ->
  (exists k, In (k, retrieve_runbook (normalize m)) KNOWLEDGE_BASE /\
             occurs_in k (normalize m)) /\
  retrieve_runbook (normalize m) <>
    lit "No specific runbook found. Follow general triage SOP.".
Proof.
  intros Hin Hocc.
  assert (F : exists k, In (k, retrieve_runbook (normalize m)) KNOWLEDGE_BASE /\
                        occurs_in k (normalize m)).
  { apply scan_runbooks_found. exists keyword, runbook. split; [assumption |].
    apply normalize_keeps_keyword; [| assumption].
    now apply (knowledge_base_clean keyword runbook). }
  split; [exact F |]. destruct F as (k & Hk & _). intros E.
  change (lit "No specific runbook found. Follow general triage SOP.")
    with fallback_runbook in E.
  rewrite E in Hk. now apply knowledge_base_not_fallback in Hk.
Qed.

Lemma retrieve_runbook_for_message_witness :
  retrieve_runbook (normalize (lit "  Payment Gateway TIMEOUT after 30s")) <>
    lit "No specific runbook found. Follow general triage SOP.".
Proof.
  apply (retrieve_runbook_for_message (lit "  Payment Gateway TIMEOUT after 30s")
           (lit "payment gateway timeout")
           (lit "RUNBOOK-PAY-99: Verify Stripe API status page. If Stripe is up, check internal NAT gateway latency.")).
  - right. left. reflexivity.
  - exists (lit "  "), (lit " after 30s"). reflexivity.
Defined.

(** ** More on grouping *)

Lemma dict_append_total k e : forall d,
  group_total (dict_append k e d) = S (group_total d).
Proof.
  unfold group_total. induction d as [|[k' v] d IH]; simpl; [reflexivity |].
  destruct (str_eqb k' k); simpl.
  - rewrite length_app. simpl. lia.
  - rewrite IH. lia.
Qed.

Lemma group_total_count entries :
  group_total (group_incidents entries) = length (filter actionable entries).
Proof.
  induction entries as [|e es IH] using rev_ind; [reflexivity |].
  rewrite group_incidents_snoc, filter_app, length_app. unfold group_step. simpl.
  destruct (actionable e); simpl.
  - rewrite dict_append_total, IH. lia.
  - rewrite IH. lia.
Qed.

Lemma dict_append_records k e : forall d,
  Permutation (flat_map snd (dict_append k e d)) (flat_map snd d ++ [e]).
Proof.
  induction d as [|[k' v] d IH]; simpl; [reflexivity |].
  destruct (str_eqb k' k); simpl.
  - rewrite <- !app_assoc. apply Permutation_app_head.
    simpl. apply Permutation_cons_append.
  - rewrite <- app_assoc. now apply Permutation_app_head.
Qed.

(** X8.  No record is lost and none is filed twice: the records of all
    groups, taken together, are the ERROR and WARN records of the input in
    another order, and so as many. *)
Theorem group_incidents_total (entries : list LogEntry) :
  Permutation (flat_map snd (group_incidents entries))
              (filter actionable entries) /\
  group_total (group_incidents entries) = length (filter actionable entries).
Proof.
  split; [| apply group_total_count].
  induction entries as [|e es IH] using rev_ind; [reflexivity |].
  rewrite group_incidents_snoc, filter_app. unfold group_step. simpl.
  destruct (actionable e).
  - rewrite dict_append_records. now apply Permutation_app_tail.
  - now rewrite app_nil_r.
Qed.

Lemma group_step_keys d e : exists later, map fst (group_step d e) = map fst d ++ later.
Proof.
  unfold group_step. destruct (actionable e).
  - rewrite dict_append_keys. eauto.
  - exists []. now rewrite app_nil_r.
Qed.

Lemma fold_group_step_keys es : forall d,
  exists later, map fst (fold_left group_step es d) = map fst d ++ later.
Proof.
  induction es as [|e es IH]; intros d; simpl.
  - exists []. now rewrite app_nil_r.
  - destruct (IH (group_step d e)) as (l2 & ->).
    destruct (group_step_keys d e) as (l1 & ->).
    exists (l1 ++ l2). now rewrite app_assoc.
Qed.

(** X9.  Records that come later leave the groups made so far in their places:
    the keys of the first part of the input stay at the front, in their
    order, and each of its groups only grows at its end. *)
Theorem group_incidents_append (es1 es2 : list LogEntry) :
  (exists later,
     map fst (group_incidents (es1 ++ es2)) =
     map fst (group_incidents es1) ++ later) /\
  (forall key records,
     In (key, records) (group_incidents es1) ->
     exists more, In (key, records ++ more) (group_incidents (es1 ++ es2))).
Proof.
  split.
  - unfold group_incidents. rewrite fold_left_app. apply fold_group_step_keys.
  - intros key records H.
    destruct (group_incidents_inv es1) as (_ & N & G & E).
    destruct (group_incidents_inv (es1 ++ es2)) as (_ & _ & G' & _).
    assert (R : records = filed_under key es1).
    { rewrite <- G. symmetry. now apply dict_get_in. }
    exists (filed_under key es2).
    replace (records ++ filed_under key es2)
      with (dict_get key (group_incidents (es1 ++ es2))).
    + apply dict_get_found. rewrite G'. unfold filed_under. rewrite filter_app.
      fold (filed_under key es1). rewrite <- R. intros Z.
      apply app_eq_nil in Z as [Z _]. now apply (E key records).
    + rewrite G', R. unfold filed_under. apply filter_app.
Qed.

Lemma group_incidents_append_witness :
  exists more,
    In (lit "db::timeout after <NUM>s", [db_err] ++ more)
       (group_incidents ([db_err; db_info] ++ [web_warn; db_err'])).
Proof.
  apply (proj2 (group_incidents_append [db_err; db_info] [web_warn; db_err'])).
  vm_compute. left. reflexivity.
Defined.

Lemma before_char_eq (c : ascii) : forall a b x y,
  a ++ c :: x = b ++ c :: y -> ~ In c a -> ~ In c b -> a = b.
Proof.
  induction a as [|p a IH]; intros [|q b] x y E Ha Hb; simpl in *.
  - reflexivity.
  - injection E as <- _. exfalso. apply Hb. now left.
  - injection E as -> _. exfalso. apply Ha. now left.
  - injection E as -> E. f_equal. apply (IH b x y E); intuition.
Qed.

Lemma derive_incident_key_service_eq e1 e2 :
  ~ In ":"%char (service e1) -> ~ In ":"%char (service e2) ->
  derive_incident_key e1 = derive_incident_key e2 -> service e1 = service e2.
Proof.
  unfold derive_incident_key. intros H1 H2 E.
  now apply (before_char_eq ":"%char _ _ _ _ E).
Qed.

(** X10.  When no service name of the input holds a colon, the records of one
    group are all of one service. *)
Theorem group_incidents_one_service (entries : list LogEntry) :
  (forall e, In e entries -> ~ In ":"%char (service e)) ->
  forall key records e1 e2,
    In (key, records) (group_incidents entries) ->
    In e1 records -> In e2 records -> service e1 = service e2.
Proof.
  intros H key records e1 e2 Hin H1 H2.
  destruct (group_incidents_inv entries) as (_ & N & G & _).
  assert (R : records = filed_under key entries).
  { rewrite <- G. symmetry. now apply dict_get_in. }
  subst records. unfold filed_under in *.
  apply filter_In in H1 as [I1 K1]. apply filter_In in H2 as [I2 K2].
  apply andb_true_iff in K1 as [_ K1]. apply andb_true_iff in K2 as [_ K2].
  apply str_eqb_eq in K1, K2.
  apply derive_incident_key_service_eq; auto. congruence.
Qed.

Lemma group_incidents_one_service_witness :
  service db_err = service db_err'.
Proof.
  apply (group_incidents_one_service [db_err; db_info; web_warn; db_err']
           ltac:(intros e [<- | [<- | [<- | [<- | []]]]];
                 simpl; intuition discriminate)
           (lit "db::timeout after <NUM>s") [db_err; db_err']).
  - vm_compute. left. reflexivity.
  - left. reflexivity.
  - right. left. reflexivity.
Defined.

(** Without that, one group can hold records of two services. *)
Example group_incidents_two_services :
  group_incidents
    [mkLogEntry (lit "t1") (lit "a") (lit "ERROR") (lit "b::c");
     mkLogEntry (lit "t2") (lit "a::b") (lit "ERROR") (lit "c")] =
  [(lit "a::b::c",
    [mkLogEntry (lit "t1") (lit "a") (lit "ERROR") (lit "b::c");
     mkLogEntry (lit "t2") (lit "a::b") (lit "ERROR") (lit "c")])].
Proof. reflexivity. Qed.

(** ** The fields of a report *)

Lemma search_has_group1_ahead f a b x y text m :
  re_search f (a ;;; b ;;; Group 1 x ;;; Ahead y) text = Some m ->
  exists v, group (caps m) 1 = Some v.
Proof.
  intros H. apply search_from_sound in H as (pre & suf & _ & H).
  now apply group1_ahead in H.
Qed.

Lemma search_has_group1_last f a b x text m :
  re_search f (a ;;; b ;;; Group 1 x) text = Some m ->
  exists v, group (caps m) 1 = Some v.
Proof.
  intros H. apply search_from_sound in H as (pre & suf & _ & H).
  now apply group1_last in H.
Qed.

(** The report of a text, field by field. *)
Lemma parse_llm_output_to_json_report text :
  parse_llm_output_to_json text =
  Ok (mkReport (field_of flags_IS summary_pattern (lit "N/A") text)
        (field_of flags_I severity_pattern (lit "P3") text)
        (field_of flags_IS root_cause_pattern (lit "N/A") text)
        (actions_of text)).
Proof.
  unfold parse_llm_output_to_json, field_of, actions_of, group1_strip.
  destruct (re_search flags_IS summary_pattern text) as [m1|] eqn:E1;
    [destruct (search_has_group1_ahead _ _ _ _ _ _ _ E1) as (v1 & ->) |];
  (destruct (re_search flags_I severity_pattern text) as [m2|] eqn:E2;
    [destruct (search_has_group1_ahead _ _ _ _ _ _ _ E2) as (v2 & ->) |]);
  (destruct (re_search flags_IS root_cause_pattern text) as [m3|] eqn:E3;
    [destruct (search_has_group1_ahead _ _ _ _ _ _ _ E3) as (v3 & ->) |]);
  (destruct (re_search flags_IS actions_pattern text) as [m4|] eqn:E4;
    [destruct (search_has_group1_last _ _ _ _ _ _ E4) as (v4 & ->) |]);
  reflexivity.
Qed.

Lemma field_of_trimmed f r default text :
  strip default = default ->
  strip (field_of f r default text) = field_of f r default text.
Proof.
  intros D. unfold field_of. destruct (re_search f r text) as [m|]; [| exact D].
  destruct (group (caps m) 1); [apply strip_idempotent | exact D].
Qed.

Lemma split_char_no_sep c : forall s p, In p (split_char c s) -> ~ In c p.
Proof.
  induction s as [|x t IH]; simpl.
  - intros p [<- | []] [].
  - destruct (Ascii.eqb x c) eqn:E.
    + intros p [<- | H]; [intros [] | now apply IH].
    + apply Ascii.eqb_neq in E.
      destruct (split_char c t) as [|q qs] eqn:S.
      * intros p [<- | []] [H | []]. congruence.
      * intros p [<- | H].
        -- intros [H | H]; [congruence |]. apply (IH q); [now left | assumption].
        -- apply IH. now right.
Qed.

Lemma strip_In l c : In c (strip l) -> In c l.
Proof.
  destruct (strip_infix l) as (a & b & E & _). intros H.
  rewrite E, !in_app_iff. auto.
Qed.

(** X13.  The text fields of a report have no white space at their ends; the
    action items are not empty, have no white space at their ends and
    hold no comma. *)
Theorem report_fields_trimmed (text : str) :
  exists r,
    parse_llm_output_to_json text = Ok r /\
    strip (summary r) = summary r /\
    strip (severity r) = severity r /\
    strip (root_cause r) = root_cause r /\
    forall a, In a (action_items r) ->
              a <> [] /\ strip a = a /\ ~ In ","%char a.
Proof.
  eexists. split; [apply parse_llm_output_to_json_report |].
  cbn [summary severity root_cause action_items].
  repeat (split; [now apply field_of_trimmed |]).
  intros a. unfold actions_of.
  destruct (re_search flags_IS actions_pattern text) as [m|]; [| intros []].
  destruct (group (caps m) 1) as [v|]; [| intros []].
  intros H. apply filter_In in H as [H N]. apply in_map_iff in H as (p & <- & H).
  split; [| split].
  - intros Z. rewrite Z in N. discriminate.
  - apply strip_idempotent.
  - intros C. apply strip_In in C. now apply split_char_no_sep in H.
Qed.






(** A label with nothing after it gives the empty text, not the default. *)
Example summary_empty_after_label :
  parse_llm_output_to_json (lit "Summary: Severity: P1") =
  Ok (mkReport [] (lit "P1") (lit "N/A") []).
Proof. reflexivity. Qed.

(** ** Loading and the driver *)

Lemma load_loop lines : forall acc,
  fold_left (fun entries line =>
               match parse_log_line line with
               | Some entry => entries ++ [entry]
               | None => entries
               end) lines acc = acc ++ parsed lines.
Proof.
  induction lines as [|l lines IH]; intros acc; simpl.
  - now rewrite app_nil_r.
  - rewrite IH. destruct (parse_log_line l); simpl.
    + now rewrite <- app_assoc.
    + reflexivity.
Qed.

Lemma load_logs_reads accepts path lines :
  load_logs accepts path (Reads lines true) = ([], Done (parsed lines)).
Proof. unfold load_logs. now rewrite load_loop. Qed.

Lemma parsed_length lines : length (parsed lines) <= length lines.
Proof.
  induction lines as [|l lines IH]; simpl; [lia |].
  rewrite length_app. destruct (parse_log_line l); simpl; lia.
Qed.

(** X3.  What [load_logs] does in each state of the file.  When there is
    no file it prints the error and returns no record.  When [open]
    raises another exception, or reading raises, or printing the error
    raises, the exception leaves [load_logs] and nothing is returned.
    When the file reads through, it returns, in the order of the lines,
    the record of every line that parses, passes over the others without
    a word, and so returns no more records than there are lines. *)
Theorem load_logs_records (accepts : stdout) (path : str) :
  load_logs accepts path Missing =
    (if accepts (lit "Error: " ++ path ++ lit " not found.")
     then ([lit "Error: " ++ path ++ lit " not found."], Done [])
     else ([], Failed (RaisedOutside AtPrint))) /\
  load_logs accepts path OpenFails = ([], Failed (RaisedOutside AtOpen)) /\
  forall lines,
    load_logs accepts path (Reads lines false) =
      ([], Failed (RaisedOutside AtRead)) /\
    load_logs accepts path (Reads lines true) =
      ([], Done (flat_map (fun line => match parse_log_line line with
                                       | Some e => [e]
                                       | None => []
                                       end) lines)) /\
    length (flat_map (fun line => match parse_log_line line with
                                  | Some e => [e]
                                  | None => []
                                  end) lines) <= length lines.
Proof.
  split; [reflexivity |]. split; [reflexivity |]. intros lines.
  split; [reflexivity |]. split; [apply load_logs_reads | apply parsed_length].
Qed.

Lemma group_incidents_skip es1 e es2 :
  actionable e = false ->
  group_incidents (es1 ++ e :: es2) = group_incidents (es1 ++ es2).
Proof.
  intros H. unfold group_incidents. rewrite !fold_left_app. simpl.
  unfold group_step at 2. now rewrite H.
Qed.

(** X4.  A line that does not parse, or whose record is neither ERROR nor
    WARN, changes nothing in the groups of a file that reads through. *)
Theorem groups_ignore_noise (accepts : stdout) (path : str)
  (before : list str) (line : str) (after : list str) :
  parse_log_line line = None \/
  (exists e, parse_log_line line = Some e /\ actionable e = false) ->
  exists with_line without,
    load_logs accepts path (Reads (before ++ line :: after) true) =
      ([], Done with_line) /\
    load_logs accepts path (Reads (before ++ after) true) = ([], Done without) /\
    group_incidents with_line = group_incidents without.
Proof.
  intros H. exists (parsed (before ++ line :: after)), (parsed (before ++ after)).
  rewrite !load_logs_reads. split; [reflexivity |]. split; [reflexivity |].
  unfold parsed. rewrite !flat_map_app. simpl.
  destruct H as [-> | (e & -> & H)]; [reflexivity |].
  now apply group_incidents_skip.
Qed.

Lemma groups_ignore_noise_witness :
  exists with_line without,
    load_logs (fun _ => true) LOG_PATH
      (Reads ([orders_line_30] ++ lit "-- rotated --" :: [orders_line_45]) true) =
      ([], Done with_line) /\
    load_logs (fun _ => true) LOG_PATH
      (Reads ([orders_line_30] ++ [orders_line_45]) true) =
      ([], Done without) /\
    group_incidents with_line = group_incidents without.
Proof. apply groups_ignore_noise. left. reflexivity. Defined.

Lemma group_incidents_keys_groups entries k v :
  In (k, v) (group_incidents entries) -> v <> [] /\ occurs_in (lit "::") k.
Proof.
  intros H. destruct (group_incidents_inv entries) as (_ & N & G & E).
  split; [now apply (E k) |].
  assert (R : v = filed_under k entries).
  { rewrite <- G. symmetry. now apply dict_get_in. }
  destruct v as [|e v]; [now apply E in H |].
  assert (He : In e (filed_under k entries)) by (rewrite <- R; now left).
  apply filter_In in He as [_ He]. apply andb_true_iff in He as [_ He].
  apply str_eqb_eq in He. subst k. apply derive_incident_key_separator.
Qed.

Lemma print_from_outside accepts text next :
  from_outside (snd next) -> from_outside (snd (print accepts text next)).
Proof.
  intros H. unfold print. destruct (accepts text); [exact H |].
  right. now exists AtPrint.
Qed.

Lemma print_accepted accepts text next :
  (forall t, accepts t = true) ->
  print accepts text next = (text :: fst next, snd next).
Proof. intros A. unfold print. now rewrite A. Qed.

(** On groups that are not empty and whose keys hold the separator, the
    loop is ended by nothing of the program's own. *)
Lemma main_loop_outside accepts gen : forall groups i,
  (forall k v, In (k, v) groups -> v <> [] /\ occurs_in (lit "::") k) ->
  from_outside (snd (main_loop accepts gen i groups)).
Proof.
  induction groups as [|[k v] groups IH]; intros i H; [now left |].
  destruct (H k v (or_introl eq_refl)) as (Hv & Hk).
  destruct v as [|first v]; [congruence |].
  cbn [main_loop]. apply print_from_outside.
  apply split_once_spec in Hk as (a & b & Sp & _).
  unfold build_summary_prompt. rewrite Sp.
  match goal with
  | |- context [gen ?p] => destruct (gen p) as [text|]
  end; [| right; now exists AtGenerator].
  destruct (parse_llm_output_to_json_ok (strip text)) as (r & -> & _).
  do 2 apply print_from_outside. apply IH.
  intros k' v' Hin. apply H. now right.
Qed.

Lemma main_loop_ok accepts gen : forall groups i,
  (forall k v, In (k, v) groups -> v <> [] /\ occurs_in (lit "::") k) ->
  (forall prompt, gen prompt <> None) -> (forall t, accepts t = true) ->
  snd (main_loop accepts gen i groups) = None /\
  length (fst (main_loop accepts gen i groups)) = 3 * length groups.
Proof.
  induction groups as [|[k v] groups IH]; intros i H G A; [split; reflexivity |].
  destruct (H k v (or_introl eq_refl)) as (Hv & Hk).
  destruct v as [|first v]; [congruence |].
  cbn [main_loop]. rewrite print_accepted by assumption.
  apply split_once_spec in Hk as (a & b & Sp & _).
  unfold build_summary_prompt. rewrite Sp.
  match goal with
  | |- context [gen ?p] => destruct (gen p) as [text|] eqn:E
  end; [| now apply G in E].
  destruct (parse_llm_output_to_json_ok (strip text)) as (r & -> & _).
  rewrite !print_accepted by assumption.
  destruct (IH (S i)) as (R & L); auto; [intros k' v' Hin; apply H; now right |].
  cbn [fst snd length]. split; [exact R | lia].
Qed.

(** X15.  [main] is ended by no exception of the program's own: what can
    end it is an exception of the world outside, raised where the file is
    opened or read, where a text is printed, where the pipeline is made
    or where the generator is called.  When printing succeeds, the
    generator is made and it answers every prompt, [main] ends as the file
    ends: with no file after it has printed two texts, with no record
    after one, and else after five texts and three more for every
    incident group; with a file that cannot be opened or read, with that
    exception. *)
Theorem main_runs_through (accepts : stdout) (pipeline : option generator)
  (f : file) :
  (snd (main accepts pipeline f) = None \/
   exists w, snd (main accepts pipeline f) = Some (RaisedOutside w)) /\
  (forall gen_pipe,
     pipeline = Some gen_pipe -> (forall prompt, gen_pipe prompt <> None) ->
     (forall text, accepts text = true) ->
     match f with
     | Missing =>
         snd (main accepts pipeline f) = None /\
         length (fst (main accepts pipeline f)) = 2
     | OpenFails => snd (main accepts pipeline f) = Some (RaisedOutside AtOpen)
     | Reads lines false =>
         snd (main accepts pipeline f) = Some (RaisedOutside AtRead)
     | Reads lines true =>
         snd (main accepts pipeline f) = None /\
         length (fst (main accepts pipeline f)) =
           match parsed lines with
           | [] => 1
           | _ :: _ => 5 + 3 * length (group_incidents (parsed lines))
           end
     end).
Proof.
  split.
  - change (from_outside (snd (main accepts pipeline f))).
    unfold main. apply print_from_outside.
    destruct f as [| |lines [|]]; cbn [load_logs].
    + destruct (accepts _); [now left | right; now exists AtPrint].
    + right. now exists AtOpen.
    + rewrite load_loop. cbn [app].
      destruct (parsed lines) as [|e es]; [now left |].
      match goal with
      | |- from_outside (snd (let (out, r) := ?x in _)) =>
          assert (M : from_outside (snd x));
          [| destruct x as [out r]; exact M]
      end.
      do 3 apply print_from_outside.
      destruct pipeline as [gen|]; [| right; now exists AtPipeline].
      apply print_from_outside, main_loop_outside.
      apply group_incidents_keys_groups.
    + right. now exists AtRead.
  - intros gen -> G A. unfold main. rewrite print_accepted by assumption.
    destruct f as [| |lines [|]]; cbn [load_logs]; rewrite ?A.
    + split; reflexivity.
    + reflexivity.
    + rewrite load_loop. cbn [app].
      destruct (parsed lines) as [|e es]; [split; reflexivity |].
      rewrite !print_accepted by assumption.
      destruct (main_loop_ok accepts gen (group_incidents (e :: es)) 1
                  (group_incidents_keys_groups (e :: es)) G A) as (R & L).
      cbn [fst snd length]. split; [exact R | lia].
    + reflexivity.
Qed.

Lemma main_runs_through_witness :
  snd (main (fun _ => true) (Some (fun _ => Some (lit "Severity: P1")))
         (Reads [orders_line_30; orders_line_45] true)) = None /\
  length (fst (main (fun _ => true) (Some (fun _ => Some (lit "Severity: P1")))
                 (Reads [orders_line_30; orders_line_45] true))) = 8.
Proof.
  apply (proj2 (main_runs_through (fun _ => true)
                  (Some (fun _ => Some (lit "Severity: P1")))
                  (Reads [orders_line_30; orders_line_45] true))
           (fun _ => Some (lit "Severity: P1")) eq_refl).
  - intros prompt. discriminate.
  - reflexivity.
Defined.

Lemma retrieve_runbook_fallback_iff_witness :
  exists k,
    In (k, retrieve_runbook (lit "slow response <NUM>ms")) KNOWLEDGE_BASE /\
    occurs_in k (lit "slow response <NUM>ms").
Proof.
  apply (proj2 (retrieve_runbook_fallback_iff (lit "slow response <NUM>ms"))).
  discriminate.
Defined.

Lemma normalize_canonical_witness :
  strip (normalize (lit "  Up   30s ")) = normalize (lit "  Up   30s ").
Proof.
  apply (proj2 (proj2 (proj2 (normalize_canonical (lit "  Up   30s "))))).
Defined.

Lemma report_fields_trimmed_witness :
  exists r,
    parse_llm_output_to_json (lit "Action Items:  restart , , scale ") = Ok r /\
    forall a, In a (action_items r) -> a <> [].
Proof.
  destruct (report_fields_trimmed (lit "Action Items:  restart , , scale "))
    as (r & P & _ & _ & _ & A).
  exists r. split; [exact P |]. intros a H. now apply A.
Defined.

(** A run of [main] on the two time-outs of the orders service. *)
Example main_orders :
  main (fun _ => true)
       (Some (fun _ => Some (lit " Summary: pool exhausted Severity: P1 ")))
       (Reads [orders_line_30; lit "noise"; orders_line_45] true) =
  ([lit "Loading logs...";
    lit "Total parsed log entries: 2";
    lit "Total incident groups: 1";
    lit "Loading generation model...";
    banner;
    lit "--- Incident #1 [orders] (2 events) ---";
    json_dumps (mkReport (lit "pool exhausted") (lit "P1") (lit "N/A") []);
    [newline]],
   None).
Proof. reflexivity. Qed.

Example main_undecodable :
  main (fun _ => true) (Some (fun _ => Some [])) (Reads [orders_line_30] false) =
  ([lit "Loading logs..."], Some (RaisedOutside AtRead)).
Proof. reflexivity. Qed.

(** A standard output that takes the first text and no other ends the run
    where the number of records is printed. *)
Example main_closed_output :
  main (fun text => str_eqb text (lit "Loading logs..."))
       (Some (fun _ => Some [])) (Reads [orders_line_30] true) =
  ([lit "Loading logs..."], Some (RaisedOutside AtPrint)).
Proof. reflexivity. Qed.
